(** * Ocean hazard monitoring: text normalisation, lexical signals,
      hazard classification, prioritisation and the rolling history.

    Shallow embedding of [nlp_analytics/nlp_processor.py],
    [nlp_analytics/hazard_detector.py] and [monitoring/dashboard.py].

    Python strings are modelled as lists of characters whose code points
    lie below 256 (the Latin-1 block); every character predicate below is
    the restriction of the corresponding Python predicate to that block. *)

From Stdlib Require Import Ascii String.
From Stdlib Require Import List Bool Arith Lia ZArith Reals Lra QArith Lqa
  Permutation Sorted.
Import ListNotations.

Set Implicit Arguments.
Close Scope R_scope.
Close Scope Q_scope.
Open Scope nat_scope.

(** ** Characters and text *)

Definition text := list ascii.

Definition txt (s : string) : text := list_ascii_of_string s.

Definition code (c : ascii) : nat := nat_of_ascii c.

Definition between (lo hi : nat) (c : ascii) : bool :=
  (lo <=? code c) && (code c <=? hi).

(** [str.isspace] and the class [\s] of [re] for [str] patterns. *)
Definition isspace (c : ascii) : bool :=
  between 9 13 c || between 28 32 c || (code c =? 133) || (code c =? 160).

(** The class [\d] of [re] for [str] patterns (decimal digits). *)
Definition isdecimal (c : ascii) : bool := between 48 57 c.

(** [str.isdigit] on one character: the decimal digits and the
    superscript digits one, two and three. *)
Definition isdigit (c : ascii) : bool :=
  between 48 57 c || between 178 179 c || (code c =? 185).

(** [str.isupper] on one character. *)
Definition isupper (c : ascii) : bool :=
  between 65 90 c || between 192 214 c || between 216 222 c.

(** The class [\w] of [re] for [str] patterns: alphanumerics and [_]. *)
Definition isword (c : ascii) : bool :=
  between 48 57 c || between 65 90 c || (code c =? 95) || between 97 122 c
  || (code c =? 170) || between 178 179 c || (code c =? 181)
  || between 185 186 c || between 188 190 c || between 192 214 c
  || between 216 246 c || between 248 255 c.

(** [string.punctuation]. *)
Definition punctuation : text :=
  txt "!" ++ [ascii_of_nat 34] ++ txt "#$%&'()*+,-./:;<=>?@[\]^_`{|}~".

Definition ispunct (c : ascii) : bool :=
  existsb (Ascii.eqb c) punctuation.

(** [str.lower] on one character. *)
Definition lower_char (c : ascii) : ascii :=
  if isupper c then ascii_of_nat (code c + 32) else c.

(** [str.lower]. *)
Definition lower (s : text) : text := map lower_char s.

(** [str.translate(str.maketrans('', '', deleted))]. *)
Definition translate_delete (deleted : text) (s : text) : text :=
  filter (fun c => negb (existsb (Ascii.eqb c) deleted)) s.

Fixpoint lstrip (s : text) : text :=
  match s with
  | c :: s' => if isspace c then lstrip s' else s
  | [] => []
  end.

Definition rstrip (s : text) : text := rev (lstrip (rev s)).

(** [str.strip()]. *)
Definition strip (s : text) : text := rstrip (lstrip s).

(** ** Regular expressions

    The fragment of Python's [re] syntax that the repository's patterns
    use: literals, character classes, concatenation, ordered alternation,
    greedy [?], greedy [*] (and [+]) applied to a character class, and
    numbered capture groups.  Matching is by backtracking, first
    alternative first and longest repetition first, as [re] does. *)

Inductive regex : Type :=
| Eps
| Chr (c : ascii)
| Cls (p : ascii -> bool)
| Cat (r1 r2 : regex)
| Alt (r1 r2 : regex)
| Opt (r : regex)
| Rep (p : ascii -> bool)
| Grp (n : nat) (r : regex).

Definition Rep1 (p : ascii -> bool) : regex := Cat (Cls p) (Rep p).

Definition notspace (c : ascii) : bool := negb (isspace c).

Definition captures := list (nat * text).

Fixpoint group (n : nat) (caps : captures) : option text :=
  match caps with
  | [] => None
  | (m, t) :: caps' => if n =? m then Some t else group n caps'
  end.

Section Matcher.

(** [re.IGNORECASE]. *)
Variable ignorecase : bool.

Variable R : Type.

Definition chr_eq (a c : ascii) : bool :=
  if ignorecase then Ascii.eqb (lower_char a) (lower_char c)
  else Ascii.eqb a c.

Fixpoint rep (p : ascii -> bool) (s : text) (k : text -> option R)
  : option R :=
  match s with
  | c :: s' =>
      if p c then
        match rep p s' k with
        | Some x => Some x
        | None => k s
        end
      else k s
  | [] => k s
  end.

Fixpoint re_m (r : regex) (s : text) (caps : captures)
    (k : text -> captures -> option R) : option R :=
  match r with
  | Eps => k s caps
  | Chr c =>
      match s with
      | a :: s' => if chr_eq a c then k s' caps else None
      | [] => None
      end
  | Cls p =>
      match s with
      | a :: s' => if p a then k s' caps else None
      | [] => None
      end
  | Cat r1 r2 => re_m r1 s caps (fun s' caps' => re_m r2 s' caps' k)
  | Alt r1 r2 =>
      match re_m r1 s caps k with
      | Some x => Some x
      | None => re_m r2 s caps k
      end
  | Opt r1 =>
      match re_m r1 s caps k with
      | Some x => Some x
      | None => k s caps
      end
  | Rep p => rep p s (fun s' => k s' caps)
  | Grp n r1 =>
      re_m r1 s caps
        (fun s' caps' =>
           k s' ((n, firstn (length s - length s') s) :: caps'))
  end.

End Matcher.

(** A match anchored at the start of [s]: its length and its groups. *)
Definition match_here (ic : bool) (r : regex) (s : text)
  : option (nat * captures) :=
  re_m ic r s [] (fun s' caps => Some (length s - length s', caps)).

(** [re.search]: the leftmost match, as the matched substring. *)
Fixpoint re_search (ic : bool) (r : regex) (s : text) : option text :=
  match match_here ic r s with
  | Some (n, _) => Some (firstn n s)
  | None =>
      match s with
      | [] => None
      | _ :: s' => re_search ic r s'
      end
  end.

Definition re_found (ic : bool) (r : regex) (s : text) : bool :=
  match re_search ic r s with Some _ => true | None => false end.

(** Replacement templates: literal text and group references [\n]. *)
Inductive repl_item : Type :=
| RLit (t : text)
| RGroup (n : nat).

Definition expand (tpl : list repl_item) (caps : captures) : text :=
  flat_map
    (fun i =>
       match i with
       | RLit t => t
       | RGroup n => match group n caps with Some t => t | None => [] end
       end) tpl.

(** [re.sub]: leftmost non-overlapping matches are replaced from left to
    right.  [skip] counts the characters still covered by the match just
    replaced. *)
Fixpoint sub_from (r : regex) (tpl : list repl_item) (s : text)
    (skip : nat) : text :=
  match s with
  | [] =>
      match skip with
      | O =>
          match match_here false r [] with
          | Some (_, caps) => expand tpl caps
          | None => []
          end
      | S _ => []
      end
  | c :: s' =>
      match skip with
      | S n => sub_from r tpl s' n
      | O =>
          match match_here false r s with
          | Some (O, caps) => expand tpl caps ++ c :: sub_from r tpl s' 0
          | Some (S n, caps) => expand tpl caps ++ sub_from r tpl s' n
          | None => c :: sub_from r tpl s' 0
          end
      end
  end.

Definition re_sub (r : regex) (tpl : list repl_item) (s : text) : text :=
  sub_from r tpl s 0.

(** *** Concrete syntax

    Patterns are kept as the source writes them and read by [re]; a
    pattern outside the fragment yields [None]. *)

Definition never : regex := Cls (fun _ => false).

Definition cat (r1 r2 : regex) : regex :=
  match r2 with
  | Eps => r1
  | _ => Cat r1 r2
  end.

Definition class_of (c : ascii) : option (ascii -> bool) :=
  if Ascii.eqb c "s" then Some isspace
  else if Ascii.eqb c "S" then Some notspace
  else if Ascii.eqb c "w" then Some isword
  else if Ascii.eqb c "d" then Some isdecimal
  else None.

Definition is_meta (c : ascii) : bool :=
  existsb (Ascii.eqb c) (txt ".^$*+?{}[]\|()").

Definition postfix (a : regex) (s : text) : option (regex * text) :=
  match s with
  | c :: s' =>
      if Ascii.eqb c "?" then Some (Opt a, s')
      else if Ascii.eqb c "*" then
        match a with Cls p => Some (Rep p, s') | _ => None end
      else if Ascii.eqb c "+" then
        match a with Cls p => Some (Rep1 p, s') | _ => None end
      else Some (a, s)
  | [] => Some (a, s)
  end.

Definition parsed : Type := option (regex * text * nat).

Fixpoint parse_alt (fuel : nat) (s : text) (g : nat) : parsed :=
  match fuel with
  | O => None
  | S f =>
      match parse_seq f s g with
      | Some (r1, c :: s1, g1) =>
          if Ascii.eqb c "|" then
            match parse_alt f s1 g1 with
            | Some (r2, s2, g2) => Some (Alt r1 r2, s2, g2)
            | None => None
            end
          else Some (r1, c :: s1, g1)
      | other => other
      end
  end
with parse_seq (fuel : nat) (s : text) (g : nat) : parsed :=
  match fuel with
  | O => None
  | S f =>
      match s with
      | [] => Some (Eps, s, g)
      | c :: _ =>
          if Ascii.eqb c "|" || Ascii.eqb c ")" then Some (Eps, s, g)
          else
            match parse_atom f s g with
            | Some (a, s1, g1) =>
                match postfix a s1 with
                | Some (a', s2) =>
                    match parse_seq f s2 g1 with
                    | Some (r, s3, g3) => Some (cat a' r, s3, g3)
                    | None => None
                    end
                | None => None
                end
            | None => None
            end
      end
  end
with parse_atom (fuel : nat) (s : text) (g : nat) : parsed :=
  match fuel with
  | O => None
  | S f =>
      match s with
      | [] => None
      | c :: s1 =>
          if Ascii.eqb c "(" then
            match parse_alt f s1 (S g) with
            | Some (r, d :: s2, g2) =>
                if Ascii.eqb d ")" then Some (Grp (S g) r, s2, g2) else None
            | _ => None
            end
          else if Ascii.eqb c "\" then
            match s1 with
            | e :: s2 =>
                match class_of e with
                | Some p => Some (Cls p, s2, g)
                | None => None
                end
            | [] => None
            end
          else if Ascii.eqb c "[" then
            match s1 with
            | c1 :: c2 :: e :: c3 :: s2 =>
                if Ascii.eqb c1 "^" && Ascii.eqb c2 "\" && Ascii.eqb c3 "]"
                then
                  match class_of e with
                  | Some p => Some (Cls (fun a => negb (p a)), s2, g)
                  | None => None
                  end
                else None
            | _ => None
            end
          else if is_meta c then None
          else Some (Chr c, s1, g)
      end
  end.

Definition parse (pattern : string) : option regex :=
  match parse_alt (4 * String.length pattern + 4) (txt pattern) 0 with
  | Some (r, [], _) => Some r
  | _ => None
  end.

(** [re.compile]. *)
Definition re (pattern : string) : regex :=
  match parse pattern with
  | Some r => r
  | None => never
  end.

(** ** [NLPProcessor.clean_text] *)

(** A value passed where a string is expected: a string, or anything else
    together with its truth value. *)
Inductive pyobj : Type :=
| PyStr (s : text)
| PyOther (truthy : bool).

Definition url_re : regex := re "http\S+|www\S+|https\S+".

Definition mention_re : regex := re "@\w+".

Definition hashtag_re : regex := re "#([^\s]+)".

Definition digits_re : regex := re "\d+".

Definition spaces_re : regex := re "\s+".

(** The body of [clean_text] on a non-empty string.  None of its steps
    raises on a string, so the [except] branch is never taken. *)
Definition clean_steps (s : text) : text :=
  let t := lower s in
  let t := re_sub url_re [] t in
  let t := re_sub mention_re [] t in
  let t := re_sub hashtag_re [RGroup 1] t in
  let t := translate_delete punctuation t in
  let t := re_sub digits_re [] t in
  strip (re_sub spaces_re [RLit (txt " ")] t).

Definition clean_str (s : text) : text :=
  match s with
  | [] => []
  | _ :: _ => clean_steps s
  end.

Definition clean_text (x : pyobj) : text :=
  match x with
  | PyStr s => clean_str s
  | PyOther _ => []
  end.


(** ** [NLPProcessor]: tokens, stopwords, lemmas *)

Fixpoint text_eqb (a b : text) : bool :=
  match a, b with
  | [], [] => true
  | x :: a', y :: b' => Ascii.eqb x y && text_eqb a' b'
  | _, _ => false
  end.

(** The components set up by [NLPProcessor.__init__].  The NLTK tokenizer,
    the WordNet lemmatizer and the transformer model are libraries outside
    the repository: a call that raises is a call that returns [None].
    [lemmatizer] is [None] when initialisation failed.
    [sentiment_logits] is [sentiment_tokenizer] followed by
    [sentiment_model]: the row [outputs.logits[0]] of the checkpoint named
    in [__init__], the two-class SST-2 classifier, whose row holds the
    logit of "negative" and the logit of "positive". *)
Record NLPProcessor : Type := {
  stop_words : list text;
  lemmatizer : option (text -> option text);
  word_tokenize : text -> option (list text);
  sentiment_logits : text -> option (R * R)
}.

Fixpoint try_map (A B : Type) (f : A -> option B) (l : list A)
  : option (list B) :=
  match l with
  | [] => Some []
  | x :: l' =>
      match f x with
      | Some y =>
          match try_map f l' with
          | Some ys => Some (y :: ys)
          | None => None
          end
      | None => None
      end
  end.

(** [" ".join]. *)
Fixpoint join (sep : text) (l : list text) : text :=
  match l with
  | [] => []
  | [t] => t
  | t :: l' => t ++ sep ++ join sep l'
  end.

Record Preprocessed : Type := {
  original_text : pyobj;
  cleaned_text : text;
  tokens : list text;
  tokens_no_stopwords : list text;
  lemmatized_tokens : list text;
  processed_text : text
}.

Section Processor.

Variable self : NLPProcessor.

Definition tokenize_text (s : text) : list text :=
  match s with
  | [] => []
  | _ :: _ =>
      match word_tokenize self s with
      | Some toks => toks
      | None => []
      end
  end.

Definition remove_stopwords (toks : list text) : list text :=
  match toks with
  | [] => []
  | _ :: _ =>
      filter (fun token => negb (existsb (text_eqb token) (stop_words self)))
        toks
  end.

Definition lemmatize_tokens (toks : list text) : list text :=
  match toks, lemmatizer self with
  | [], _ => toks
  | _, None => toks
  | _ :: _, Some lemmatize =>
      match try_map lemmatize toks with
      | Some lemmas => lemmas
      | None => toks
      end
  end.

Definition preprocess_text (x : pyobj) : Preprocessed :=
  let cleaned := clean_text x in
  let toks := tokenize_text cleaned in
  let kept := remove_stopwords toks in
  let lemmas := lemmatize_tokens kept in
  {| original_text := x;
     cleaned_text := cleaned;
     tokens := toks;
     tokens_no_stopwords := kept;
     lemmatized_tokens := lemmas;
     processed_text := join (txt " ") lemmas |}.

(** *** [extract_keywords] *)

(** A [dict] from words to counts, in insertion order. *)
Definition freq_dict : Type := list (text * nat).

(** [d.get(k, 0)] *)
Fixpoint dict_get (d : freq_dict) (k : text) : nat :=
  match d with
  | [] => 0
  | (k', v) :: d' => if text_eqb k k' then v else dict_get d' k
  end.

(** [d[k] = v]: an existing key keeps its place, a new key goes last. *)
Fixpoint dict_set (d : freq_dict) (k : text) (v : nat) : freq_dict :=
  match d with
  | [] => [(k, v)]
  | (k', v') :: d' =>
      if text_eqb k k' then (k', v) :: d' else (k', v') :: dict_set d' k v
  end.

Definition count_token (word_freq : freq_dict) (token : text) : freq_dict :=
  if 2 <? length token
  then dict_set word_freq token (dict_get word_freq token + 1)
  else word_freq.

Definition word_frequencies (toks : list text) : freq_dict :=
  fold_left count_token toks [].

(** [sorted(items, key=lambda x: x[1], reverse=True)]: a stable sort,
    items of equal frequency keep their order. *)
Fixpoint insert_by_freq (x : text * nat) (l : freq_dict) : freq_dict :=
  match l with
  | [] => [x]
  | y :: l' =>
      if snd x <? snd y then y :: insert_by_freq x l' else x :: l
  end.

Definition sorted_by_freq (items : freq_dict) : freq_dict :=
  fold_right insert_by_freq [] items.

(** [l[:n]] *)
Definition slice_to (A : Type) (n : Z) (l : list A) : list A :=
  if (0 <=? n)%Z then firstn (Z.to_nat n) l
  else firstn (length l - Z.to_nat (- n)) l.

Definition extract_keywords (x : pyobj) (top_n : Z) : freq_dict :=
  match x with
  | PyStr (_ :: _) =>
      let preprocessed := preprocess_text x in
      let word_freq := word_frequencies (lemmatized_tokens preprocessed) in
      slice_to top_n (sorted_by_freq word_freq)
  | _ => []
  end.

(** *** [analyze_sentiment] *)

Inductive sentiment_label : Type := positive_label | negative_label.

Record Sentiment : Type := {
  positive : R;
  negative : R;
  label : sentiment_label
}.

Definition default_sentiment : Sentiment :=
  {| positive := 0%R; negative := 1%R; label := negative_label |}.

(** [torch.nn.functional.softmax(_, dim=-1)] on one row of logits.  The
    probabilities are real numbers: the rounding of the float32
    arithmetic of the source is not part of the model. *)
Definition softmax (row : list R) : list R :=
  let total := fold_right Rplus 0%R (map exp row) in
  map (fun l => (exp l / total)%R) row.

(** An index that [probabilities] does not have raises [IndexError],
    which the handler of the method turns into the default. *)
Definition analyze_sentiment (x : pyobj) : Sentiment :=
  match x with
  | PyStr (c :: s) =>
      match sentiment_logits self (c :: s) with
      | Some (l0, l1) =>
          let probabilities := softmax [l0; l1] in
          match nth_error probabilities 1, nth_error probabilities 0 with
          | Some p1, Some p0 =>
              {| negative := p0;
                 positive := p1;
                 label := if Rlt_dec p0 p1 then positive_label
                          else negative_label |}
          | _, _ => default_sentiment
          end
      | None => default_sentiment
      end
  | _ => default_sentiment
  end.

End Processor.

(** ** [HazardDetector] *)

Open Scope string_scope.

Definition hazard_patterns : list (string * list string) :=
  [ ("flood",
      [ "flood(ing)?";
        "water level(s)? rise";
        "submerged";
        "inundat(e|ion)" ]);
    ("storm_surge",
      [ "storm\s*surge";
        "surge\s*warning";
        "coastal\s*surge";
        "sea\s*level\s*rise" ]);
    ("tsunami",
      [ "tsunami";
        "tidal\s*wave";
        "seismic\s*sea\s*wave" ]);
    ("high_waves",
      [ "high\s*waves?";
        "large\s*waves?";
        "dangerous\s*waves?";
        "rough\s*seas?";
        "wave\s*height" ]);
    ("erosion",
      [ "erosion";
        "coastal\s*erosion";
        "beach\s*loss";
        "shoreline\s*retreat" ]);
    ("marine_pollution",
      [ "oil\s*spill";
        "pollut(e|ion)";
        "contaminat(e|ion)";
        "marine\s*debris";
        "plastic\s*waste" ]);
    ("harmful_algal_bloom",
      [ "harmful\s*algal\s*bloom";
        "red\s*tide";
        "blue\s*tide";
        "algal\s*bloom" ]);
    ("coastal_storm",
      [ "coastal\s*storm";
        "tropical\s*storm";
        "hurricane";
        "typhoon";
        "cyclone" ]) ].

Definition severity_indicators : list (string * list string) :=
  [ ("high",
      [ "major"; "severe"; "catastrophic"; "dangerous"; "urgent";
        "emergency"; "critical"; "extreme"; "life-threatening";
        "evacuation"; "damage"; "destroy"; "collapse"; "injured";
        "casualty"; "fatal" ]);
    ("medium",
      [ "moderate"; "significant"; "noticeable"; "concerning"; "warning";
        "alert"; "precautionary"; "potential"; "possible"; "expected" ]);
    ("low",
      [ "minor"; "slight"; "mild"; "small"; "observation"; "monitoring";
        "update"; "information" ]) ].

Close Scope string_scope.

(** [d[key]] on a table of pattern lists; a missing tier has no patterns. *)
Fixpoint patterns_of (table : list (string * list string)) (key : string)
  : list string :=
  match table with
  | [] => []
  | (k, ps) :: table' =>
      if String.eqb key k then ps else patterns_of table' key
  end.

(** The substrings matched in [t], one per pattern that matches. *)
Definition matched_spans (ic : bool) (patterns : list string) (t : text)
  : list text :=
  flat_map
    (fun p =>
       match re_search ic (re p) t with
       | Some m => [m]
       | None => []
       end) patterns.

Definition nonempty (A : Type) (l : list A) : bool :=
  match l with [] => false | _ :: _ => true end.

(** Modelled from the spec: the hazard matching of the Hazard Classifier
    (section 4.3).  [hazard_detector.py] ends inside [__init__], after the
    pattern tables; the methods that use the tables are not in the
    sources.  Every hazard type whose case-insensitive pattern list has a
    match in the raw text is tagged, with the matched substrings. *)
Definition detect_hazards (raw : text) : list (string * list text) :=
  flat_map
    (fun entry =>
       let spans := matched_spans true (snd entry) raw in
       if nonempty spans then [(fst entry, spans)] else [])
    hazard_patterns.

(** Modelled from the spec: the severity resolution of the Hazard
    Classifier (section 4.3), missing from the sources like
    [detect_hazards].  The text is scanned for the indicators of all three
    tiers, then the highest tier with a match wins.  The spec does not say
    whether indicators match case-insensitively: [ic] is that choice. *)
Definition determine_severity (ic : bool) (t : text) : string :=
  let hits tier := matched_spans ic (patterns_of severity_indicators tier) t in
  let high := hits "high"%string in
  let medium := hits "medium"%string in
  let low := hits "low"%string in
  if nonempty high then "high"%string
  else if nonempty medium then "medium"%string
  else if nonempty low then "low"%string
  else "unknown"%string.

Record HazardClassification : Type := {
  hazards : list string;
  severity : string;
  matched : list text
}.

(** Modelled from the spec: [classify(raw_text, normalized, signals)] of
    section 4.3, missing from the sources.  Hazard types and severity are
    both matched against the raw text. *)
Definition classify (ic : bool) (raw : text) (normalized : Preprocessed)
  : HazardClassification :=
  let found := detect_hazards raw in
  {| hazards := map fst found;
     severity := determine_severity ic raw;
     matched := flat_map snd found |}.

(** *** Prioritizer *)

Record PrioritizedReport : Type := {
  report_id : text;
  timestamp : Z;
  classification : HazardClassification;
  priority : Q;
  confidence : Q
}.

(** Order of two strings by code points, as Python compares [str]. *)
Fixpoint text_compare (a b : text) : comparison :=
  match a, b with
  | [], [] => Eq
  | [], _ :: _ => Lt
  | _ :: _, [] => Gt
  | x :: a', y :: b' =>
      match Nat.compare (code x) (code y) with
      | Eq => text_compare a' b'
      | o => o
      end
  end.

(** Modelled from the spec: the sort key of the Prioritizer (section 4.4):
    descending priority, then most recent timestamp first, then report id
    ascending.  [Lt] when [a] is placed before [b]. *)
Definition rank_compare (a b : PrioritizedReport) : comparison :=
  match Qcompare (priority b) (priority a) with
  | Eq =>
      match Z.compare (timestamp b) (timestamp a) with
      | Eq => text_compare (report_id a) (report_id b)
      | o => o
      end
  | o => o
  end.

Definition ranks_before (a b : PrioritizedReport) : bool :=
  match rank_compare a b with Lt => true | _ => false end.

Fixpoint insert_ranked (x : PrioritizedReport) (l : list PrioritizedReport)
  : list PrioritizedReport :=
  match l with
  | [] => [x]
  | y :: l' =>
      if ranks_before y x then y :: insert_ranked x l' else x :: l
  end.

(** Modelled from the spec: [HazardDetector.prioritize_reports], called by
    the dashboard and missing from the sources: the stable sort of section
    4.4. *)
Definition prioritize_reports (batch : list PrioritizedReport)
  : list PrioritizedReport :=
  fold_right insert_ranked [] batch.

(** ** [OceanHazardDashboard]: current hazards and rolling history *)

Record MockReport : Type := {
  mock_id : string;
  mock_description : string;
  mock_location : string;
  mock_latitude : Q;
  mock_longitude : Q;
  mock_timestamp : Z;
  mock_severity : string;
  mock_hazards : list string;
  mock_source : string
}.

(** An element of [current_hazards] and [hazard_history]. *)
Inductive hazard_entry : Type :=
| Analyzed (r : PrioritizedReport)
| Mocked (m : MockReport).

Open Scope string_scope.

(** The five records of [_generate_mock_data]; [now] is
    [datetime.now()] in seconds. *)
Definition mock_data (now : Z) : list MockReport :=
  [ {| mock_id := "mock_1";
       mock_description :=
         "Major flooding near the pier in Coastal City. Water levels rising rapidly.";
       mock_location := "Coastal City";
       mock_latitude := 34.0522; mock_longitude := - 118.2437;
       mock_timestamp := now - 15 * 60;
       mock_severity := "high";
       mock_hazards := ["flood"; "high_waves"];
       mock_source := "citizen_report" |};
    {| mock_id := "mock_2";
       mock_description :=
         "Storm surge warning issued for Beach Town. Expect waves up to 8 feet.";
       mock_location := "Beach Town";
       mock_latitude := 36.7783; mock_longitude := - 119.4179;
       mock_timestamp := now - 30 * 60;
       mock_severity := "medium";
       mock_hazards := ["storm_surge"];
       mock_source := "official_alert" |};
    {| mock_id := "mock_3";
       mock_description :=
         "High waves observed at Seaside Village. Caution advised for swimmers.";
       mock_location := "Seaside Village";
       mock_latitude := 38.8951; mock_longitude := - 77.0364;
       mock_timestamp := now - 3600;
       mock_severity := "low";
       mock_hazards := ["high_waves"];
       mock_source := "lifeguard_report" |};
    {| mock_id := "mock_4";
       mock_description :=
         "Coastal erosion worsening at Point Break. Several feet of beach lost this season.";
       mock_location := "Point Break";
       mock_latitude := 40.7128; mock_longitude := - 74.0060;
       mock_timestamp := now - 2 * 3600;
       mock_severity := "medium";
       mock_hazards := ["erosion"];
       mock_source := "environmental_agency" |};
    {| mock_id := "mock_5";
       mock_description :=
         "Tropical storm approaching the gulf coast. Evacuation orders in effect for low-lying areas.";
       mock_location := "Gulf Coast City";
       mock_latitude := 29.7604; mock_longitude := - 95.3698;
       mock_timestamp := now - 3 * 3600;
       mock_severity := "high";
       mock_hazards := ["coastal_storm"; "flood"];
       mock_source := "national_weather_service" |} ]%Z%Q.

Close Scope string_scope.

Record Dashboard : Type := {
  current_hazards : list hazard_entry;
  hazard_history : list hazard_entry
}.

(** [__init__]: both lists start empty. *)
Definition new_dashboard : Dashboard :=
  {| current_hazards := []; hazard_history := [] |}.

(** [l[-n:]] for positive [n]. *)
Definition slice_last (A : Type) (n : nat) (l : list A) : list A :=
  skipn (length l - n) l.

(** The cap written in [collect_and_analyze_data] and
    [_generate_mock_data]. *)
Definition history_cap : nat := 1000.

(** [self.hazard_history.extend(batch)], then the trim to the cap. *)
Definition extend_history (history batch : list hazard_entry)
  : list hazard_entry :=
  let history := history ++ batch in
  if history_cap <? length history
  then slice_last history_cap history
  else history.

Definition _generate_mock_data (self : Dashboard) (now : Z) : Dashboard :=
  let mock := map Mocked (mock_data now) in
  {| current_hazards := mock;
     hazard_history := extend_history (hazard_history self) mock |}.

(** What one call of [collect_and_analyze_data] meets: collector and
    detector present and the pipeline returning the list of prioritized
    reports; a call of the collector, of the analysis or of the
    prioritizer raising, which is before [current_hazards] is assigned;
    or a component absent (mock data at time [now]).  On a list, what
    follows the assignment does not raise. *)
Inductive collection : Type :=
| Collected (prioritized_reports : list PrioritizedReport)
| Raised
| NoComponents (now : Z).

Definition collect_and_analyze_data (self : Dashboard) (c : collection)
  : Dashboard :=
  match c with
  | Collected prioritized_reports =>
      let batch := map Analyzed prioritized_reports in
      {| current_hazards := batch;
         hazard_history := extend_history (hazard_history self) batch |}
  | Raised => self
  | NoComponents now => _generate_mock_data self now
  end.

(** The entries a call appends to the history. *)
Definition appended (c : collection) : list hazard_entry :=
  match c with
  | Collected prioritized_reports => map Analyzed prioritized_reports
  | Raised => []
  | NoComponents now => map Mocked (mock_data now)
  end.

(** Successive refreshes, oldest first. *)
Definition refresh_all (self : Dashboard) (runs : list collection)
  : Dashboard :=
  fold_left collect_and_analyze_data runs self.


(** ** [NLPProcessor.process_batch] *)



(** ** [DataCollector] *)

(** The values of the report dictionaries.  [VTime t] is the ISO-8601
    string of the instant [t], in seconds. *)
#[warnings="-register-all"] Inductive pyval : Type :=
| VNone
| VStr (s : string)
| VNum (q : Q)
| VTime (t : Z)
| VList (l : list pyval)
| VDict (d : list (string * pyval)).

Definition pydict : Type := list (string * pyval).

(** [k in d] and [d[k]] *)
Fixpoint lookup (A : Type) (d : list (string * A)) (k : string) : option A :=
  match d with
  | [] => None
  | (k', v) :: d' => if String.eqb k k' then Some v else lookup d' k
  end.

(** [d.get(k, default)] *)
Definition get (A : Type) (d : list (string * A)) (k : string) (default : A)
  : A :=
  match lookup d k with
  | Some v => v
  | None => default
  end.

(** [d[k] = v]: an existing key keeps its place, a new key goes last. *)
Fixpoint assign (A : Type) (d : list (string * A)) (k : string) (v : A)
  : list (string * A) :=
  match d with
  | [] => [(k, v)]
  | (k', v') :: d' =>
      if String.eqb k k' then (k', v) :: d' else (k', v') :: assign d' k v
  end.

(** [DataSource.collect_data]: from the parameters and the clock to the
    collected records; [None] when the call raises. *)
Definition DataSource : Type := pydict -> Z -> option (list pydict).

Open Scope string_scope.

Definition CitizenReportSource : DataSource :=
  fun params now =>
    Some
      [ [ ("id", VStr "report_1");
          ("type", VStr "flood");
          ("location", VStr "Coastal City A");
          ("latitude", VNum 34.0522);
          ("longitude", VNum (- 118.2437));
          ("severity", VStr "high");
          ("description", VStr "Major flooding near the pier");
          ("timestamp", VTime now);
          ("source", VStr "citizen_report") ];
        [ ("id", VStr "report_2");
          ("type", VStr "storm_surge");
          ("location", VStr "Beach Town B");
          ("latitude", VNum 36.7783);
          ("longitude", VNum (- 119.4179));
          ("severity", VStr "medium");
          ("description", VStr "Waves reaching the boardwalk");
          ("timestamp", VTime (now - 3600));
          ("source", VStr "citizen_report") ] ]%Q%Z.

Definition SocialMediaSource : DataSource :=
  fun params now =>
    Some
      [ [ ("id", VStr "tweet_1");
          ("text",
            VStr "The waves are getting dangerously high at Coastal City beach! #oceanhazard #flooding");
          ("location", VStr "Coastal City");
          ("latitude", VNum 34.0522);
          ("longitude", VNum (- 118.2437));
          ("timestamp", VTime (now - 30 * 60));
          ("source", VStr "twitter");
          ("user", VStr "@concerned_citizen") ];
        [ ("id", VStr "tweet_2");
          ("text",
            VStr "Just heard a weather alert about potential storm surge in the area. Stay safe everyone!");
          ("location", VStr "Beach Town");
          ("latitude", VNum 36.7783);
          ("longitude", VNum (- 119.4179));
          ("timestamp", VTime (now - 2 * 3600));
          ("source", VStr "twitter");
          ("user", VStr "@local_weather") ] ]%Q%Z.

Definition NewsFeedSource : DataSource :=
  fun params now =>
    Some
      [ [ ("id", VStr "news_1");
          ("title", VStr "Coastal Communities Prepare for Upcoming Storm");
          ("content",
            VStr "Local authorities are issuing warnings and preparing emergency response teams as a tropical system approaches the coast.");
          ("source", VStr "Coastal News Network");
          ("url", VStr "https://example-news.com/storm-warning");
          ("timestamp", VTime (now - 4 * 3600));
          ("location", VStr "Regional Coast") ] ]%Z.

Record DataCollector : Type := {
  sources : list (string * DataSource);
  collected_data : list pydict
}.

(** [DataCollector.__init__] *)
Definition new_collector : DataCollector :=
  {| sources :=
       [ ("citizen_reports", CitizenReportSource);
         ("social_media", SocialMediaSource);
         ("news_feeds", NewsFeedSource) ];
     collected_data := [] |}.

Close Scope string_scope.

Definition register_source (self : DataCollector) (name : string)
    (source : DataSource) : DataCollector :=
  {| sources := assign (sources self) name source;
     collected_data := collected_data self |}.

(** One turn of the loop of [collect_all_data]: a source that raises
    leaves [all_data] as it is. *)
Definition collect_one (params : list (string * pydict)) (now : Z)
    (all_data : list pydict) (entry : string * DataSource) : list pydict :=
  let source_params := get params (fst entry) [] in
  match snd entry source_params now with
  | Some source_data => all_data ++ source_data
  | None => all_data
  end.

(** [collect_all_data]: the returned list and the collector afterwards. *)
Definition collect_all_data (self : DataCollector)
    (params : list (string * pydict)) (now : Z)
  : list pydict * DataCollector :=
  let all_data := fold_left (collect_one params now) (sources self) [] in
  (all_data, {| sources := sources self; collected_data := all_data |}).

(** [collect_from_source]: an unknown name gives the empty list, and a
    source that raises is not caught ([None]). *)
Definition collect_from_source (self : DataCollector) (source_name : string)
    (params : pydict) (now : Z) : option (list pydict) :=
  match lookup (sources self) source_name with
  | None => Some []
  | Some source => source params now
  end.

(** ** [OceanHazardDashboard]: preparing and showing the data *)

Open Scope string_scope.

(** The dictionary that [_generate_mock_data] writes for a mock record. *)
Definition mock_dict (m : MockReport) : pydict :=
  [ ("id", VStr (mock_id m));
    ("description", VStr (mock_description m));
    ("location", VStr (mock_location m));
    ("latitude", VNum (mock_latitude m));
    ("longitude", VNum (mock_longitude m));
    ("timestamp", VTime (mock_timestamp m));
    ("severity", VStr (mock_severity m));
    ("hazards", VList (map VStr (mock_hazards m)));
    ("source", VStr (mock_source m)) ].

(** The body of the loop of [_prepare_data_for_dashboard].  [hash_id]
    stands for [str(hash(str(hazard)))] and [now] for [datetime.now()];
    a value under "original_data" that is not a dictionary has no [get],
    and the method raises ([None]). *)
Definition prepare_item (hash_id : pydict -> string) (now : Z)
    (hazard : pydict) : option pydict :=
  match get hazard "original_data" (VDict hazard) with
  | VDict original_data =>
      Some
        [ ("id", get original_data "id" (VStr (hash_id hazard)));
          ("description",
            get original_data "description"
              (get original_data "text"
                 (get original_data "title" (VStr ""))));
          ("location", get original_data "location" (VStr ""));
          ("latitude", get original_data "latitude" VNone);
          ("longitude", get original_data "longitude" VNone);
          ("timestamp", get original_data "timestamp" (VTime now));
          ("severity", get hazard "severity" (VStr "unknown"));
          ("hazards", get hazard "hazards" (VList []));
          ("source", get original_data "source" (VStr "unknown"));
          ("confidence", get hazard "confidence" (VNum 0)) ]
  | _ => None
  end.

Close Scope string_scope.

Definition _prepare_data_for_dashboard (hash_id : pydict -> string)
    (now : Z) (current : list pydict) : option (list pydict) :=
  try_map (prepare_item hash_id now) current.

(** The description cell of [update_hazard_table]:
    [d[:100] + '...' if len(d) > 100 else d]. *)
Definition table_description (description : text) : text :=
  if 100 <? length description
  then firstn 100 description ++ txt "..."
  else description.

(** The hazard count of [update_hazard_distribution]: [rows] holds the
    "hazards" list of every row. *)
Definition hazard_counts (rows : list (list text)) : freq_dict :=
  fold_left
    (fun counts row =>
       fold_left
         (fun counts hazard =>
            dict_set counts hazard (dict_get counts hazard + 1))
         row counts)
    rows [].

(** ** Vocabulary of the statements *)

(** Length of the longest prefix of [s] whose characters satisfy [p]. *)
Fixpoint span_len (p : ascii -> bool) (s : text) : nat :=
  match s with
  | c :: s' => if p c then S (span_len p s') else 0
  | [] => 0
  end.

(** Every whitespace character of [t] is a space, and the character after
    it, when there is one, is not whitespace. *)
Fixpoint single_spaced (t : text) : Prop :=
  match t with
  | [] => True
  | c :: t' =>
      (isspace c = true -> c = " "%char /\ span_len isspace t' = 0)
      /\ single_spaced t'
  end.

(** Neither an uppercase letter, nor a decimal digit, nor punctuation. *)
Definition plain_char (c : ascii) : Prop :=
  isupper c = false /\ isdecimal c = false /\ ispunct c = false.

(** The dictionary lemmatizer maps each of its lemmas to itself. *)
Definition lemmas_fixed (lemmatize : text -> option text) : Prop :=
  forall t t', lemmatize t = Some t' -> lemmatize t' = Some t'.

(** The words of a pattern: what the pattern denotes, apart from any
    matching strategy. *)
Inductive matches (ic : bool) : regex -> text -> Prop :=
| M_Eps : matches ic Eps []
| M_Chr a c : chr_eq ic a c = true -> matches ic (Chr c) [a]
| M_Cls (p : ascii -> bool) a : p a = true -> matches ic (Cls p) [a]
| M_Cat r1 r2 w1 w2 :
    matches ic r1 w1 -> matches ic r2 w2 -> matches ic (Cat r1 r2) (w1 ++ w2)
| M_AltL r1 r2 w : matches ic r1 w -> matches ic (Alt r1 r2) w
| M_AltR r1 r2 w : matches ic r2 w -> matches ic (Alt r1 r2) w
| M_OptNone r : matches ic (Opt r) []
| M_OptSome r w : matches ic r w -> matches ic (Opt r) w
| M_Rep (p : ascii -> bool) w :
    Forall (fun a => p a = true) w -> matches ic (Rep p) w
| M_Grp n r w : matches ic r w -> matches ic (Grp n r) w.

(** Some substring of [t] is a word of the pattern [p]. *)
Definition occurs (ic : bool) (p : string) (t : text) : Prop :=
  exists pre w post, t = pre ++ w ++ post /\ matches ic (re p) w.

(** Some indicator of the tier has a match in [t]. *)
Definition tier_present (ic : bool) (tier : string) (t : text) : Prop :=
  exists p, In p (patterns_of severity_indicators tier) /\ occurs ic p t.

(** Some pattern of some hazard type has a match in [t]. *)
Definition hazard_present (h : string) (t : text) : Prop :=
  exists ps p, In (h, ps) hazard_patterns /\ In p ps /\ occurs true p t.

(** [a] may stand before [b] in a prioritized list: higher priority, or
    the same priority and a later timestamp, or the same of both and an
    id that is not greater. *)
Definition in_order (a b : PrioritizedReport) : Prop :=
  (priority b < priority a)%Q
  \/ (priority a == priority b)%Q
     /\ ((timestamp b < timestamp a)%Z
         \/ timestamp a = timestamp b
            /\ text_compare (report_id a) (report_id b) <> Gt).

Definition same_key (a b : PrioritizedReport) : Prop :=
  (priority a == priority b)%Q
  /\ timestamp a = timestamp b
  /\ report_id a = report_id b.

(** No two reports of the batch share (priority, timestamp, id). *)
Definition distinct_keys (batch : list PrioritizedReport) : Prop :=
  forall a b, In a batch -> In b batch -> same_key a b -> a = b.

Definition text_eq_dec (a b : text) : {a = b} + {a <> b} :=
  list_eq_dec ascii_dec a b.

(** Position of the first occurrence of [w] in [l]. *)
Fixpoint first_index (w : text) (l : list text) : nat :=
  match l with
  | [] => 0
  | t :: l' => if text_eqb w t then 0 else S (first_index w l')
  end.

(** Among the counted words [kw], entry [a] stands before entry [b]: it
    is more frequent, or as frequent and first met earlier. *)
Definition outranks (kw : list text) (a b : text * nat) : Prop :=
  snd b < snd a
  \/ snd a = snd b /\ first_index (fst a) kw < first_index (fst b) kw.

(** The lemmas that [extract_keywords] counts. *)
Definition counted (self : NLPProcessor) (x : pyobj) : list text :=
  filter (fun token => 2 <? length token)
    (lemmatized_tokens (preprocess_text self x)).

(** ** Sample components

    A processor whose tokenizer splits at whitespace, whose lemmatizer
    knows one plural, and whose sentiment model fails on text that starts
    with an exclamation mark and gives the logits 1 and 0 otherwise. *)

Fixpoint split_words (s : text) (word : text) : list text :=
  match s with
  | [] => match word with [] => [] | _ :: _ => [rev word] end
  | c :: s' =>
      if isspace c then
        match word with
        | [] => split_words s' []
        | _ :: _ => rev word :: split_words s' []
        end
      else split_words s' (c :: word)
  end.

Definition sample_lemmatize (t : text) : option text :=
  if text_eqb t (txt "waves") then Some (txt "wave") else Some t.

Definition sample_logits (s : text) : option (R * R) :=
  match s with
  | "!"%char :: _ => None
  | _ => Some (1, 0)%R
  end.

Definition sample_processor : NLPProcessor :=
  {| stop_words := [txt "the"; txt "near"; txt "are"];
     lemmatizer := Some sample_lemmatize;
     word_tokenize := fun s => Some (split_words s []);
     sentiment_logits := sample_logits |}.

Definition show (t : text) : string := string_of_list_ascii t.

(** The 256 characters, by code point. *)
Definition all_chars : text := map ascii_of_nat (seq 0 256).

(** The patterns of [clean_text], as the source writes them. *)
Definition clean_text_patterns : list string :=
  [ "http\S+|www\S+|https\S+"; "@\w+"; "#([^\s]+)"; "\d+"; "\s+" ]%string.

Definition no_classification : HazardClassification :=
  {| hazards := []; severity := "unknown"; matched := [] |}.

Definition sample_report (id : string) (time : Z) (score : Q)
  : PrioritizedReport :=
  {| report_id := txt id; timestamp := time;
     classification := no_classification;
     priority := score; confidence := 1 # 2 |}.

Definition sample_batch : list PrioritizedReport :=
  [ sample_report "r3" 100 (3 # 2);
    sample_report "r1" 250 (7 # 2);
    sample_report "r2" 100 (3 # 2);
    sample_report "r4" 900 (3 # 2) ].

(** ** Vocabulary of the proofs *)

(** The pattern has the empty word. *)
Fixpoint nullable (r : regex) : bool :=
  match r with
  | Eps => true
  | Chr _ => false
  | Cls _ => false
  | Cat r1 r2 => nullable r1 && nullable r2
  | Alt r1 r2 => nullable r1 || nullable r2
  | Opt _ => true
  | Rep _ => true
  | Grp _ r1 => nullable r1
  end.

Definition suffix (s' s : text) : Prop := exists p, s = p ++ s'.

(** Every group of [caps'] is a group of [caps] or a piece of [s]. *)
Definition caps_within (s : text) (caps caps' : captures) : Prop :=
  forall g t, group g caps' = Some t -> group g caps = Some t \/ incl t s.

Definition tpl_chars (tpl : list repl_item) : text :=
  flat_map (fun i => match i with RLit t => t | RGroup _ => [] end) tpl.

(** A pattern that matches at no position leaves the text as it is. *)
Definition no_match (r : regex) (s : text) : Prop :=
  forall t, suffix t s -> match_here false r t = None.

Definition one_space : list repl_item := [RLit (txt " ")].

(** What the dictionary holds after the words [seen] were counted. *)
Record counts_of (seen : list text) (d : freq_dict) : Prop := {
  keys_sorted :
    StronglySorted
      (fun a b => first_index a seen < first_index b seen) (map fst d);
  keys_seen : forall w, In w (map fst d) <-> In w seen;
  values_count :
    forall w c, In (w, c) d -> c = count_occ text_eq_dec seen w
}.

(** The sum of the frequencies of a dictionary. *)
Definition total_frequency (d : freq_dict) : nat :=
  fold_right (fun e n => snd e + n) 0 d.

(** A token is in the stopword set. *)
Definition is_stopword (self : NLPProcessor) (token : text) : bool :=
  existsb (text_eqb token) (stop_words self).

(** Every keyword of the text, most frequent first: what
    [extract_keywords] returns when [top_n] is the number of lemmas. *)
Definition all_keywords (self : NLPProcessor) (x : pyobj) : freq_dict :=
  extract_keywords self x
    (Z.of_nat (length (lemmatized_tokens (preprocess_text self x)))).

(** The run raised before it reached the dashboard's lists. *)
Definition is_raised (c : collection) : bool :=
  match c with
  | Raised => true
  | _ => false
  end.

Definition is_dict (v : pyval) : bool :=
  match v with
  | VDict _ => true
  | _ => false
  end.

(** The keys of a dashboard item, in the order the source writes them. *)
Definition item_keys : list string :=
  [ "id"; "description"; "location"; "latitude"; "longitude"; "timestamp";
    "severity"; "hazards"; "source"; "confidence" ]%string.

(** What a source contributes to [collect_all_data]. *)
Definition contribution (params : list (string * pydict)) (now : Z)
    (entry : string * DataSource) : list pydict :=
  match snd entry (get params (fst entry) []) now with
  | Some source_data => source_data
  | None => []
  end.

(** A source that always raises, and one with a single record. *)
Definition broken_source : DataSource := fun _ _ => None.

Definition buoy_source : DataSource :=
  fun _ now =>
    Some [ [ ("id", VStr "buoy_7"); ("wave_height", VNum 4.2);
             ("timestamp", VTime now) ]%string%Q ].

(** An analyzed report as the dashboard reads it: the raw record under
    "original_data", the analysis beside it. *)
Definition sample_hazard : pydict :=
  [ ("original_data",
      VDict [ ("id", VStr "tweet_1");
              ("text", VStr "The waves are getting dangerously high");
              ("location", VStr "Coastal City");
              ("source", VStr "twitter") ]);
    ("severity", VStr "high");
    ("hazards", VList [VStr "high_waves"]);
    ("confidence", VNum 0.8) ]%string%Q.

(** * Properties *)

(** ** Characters *)

Example isspace_codes :
  map code (filter isspace all_chars)
  = [9; 10; 11; 12; 13; 28; 29; 30; 31; 32; 133; 160].
Proof. vm_compute. reflexivity. Qed.

Example isdecimal_codes :
  map code (filter isdecimal all_chars) = seq 48 10.
Proof. vm_compute. reflexivity. Qed.

Example isdigit_codes :
  map code (filter isdigit all_chars) = seq 48 10 ++ [178; 179; 185].
Proof. vm_compute. reflexivity. Qed.

Example isupper_codes :
  map code (filter isupper all_chars) = seq 65 26 ++ seq 192 23 ++ seq 216 7.
Proof. vm_compute. reflexivity. Qed.

Example lower_char_codes :
  map code (map lower_char (filter isupper all_chars))
  = seq 97 26 ++ seq 224 23 ++ seq 248 7.
Proof. vm_compute. reflexivity. Qed.

Example isword_codes :
  map code (filter isword all_chars)
  = seq 48 10 ++ seq 65 26 ++ [95] ++ seq 97 26
    ++ [170; 178; 179; 181; 185; 186; 188; 189; 190]
    ++ seq 192 23 ++ seq 216 31 ++ seq 248 8.
Proof. vm_compute. reflexivity. Qed.

Example punctuation_codes :
  map code punctuation = seq 33 15 ++ seq 58 7 ++ seq 91 6 ++ seq 123 4.
Proof. vm_compute. reflexivity. Qed.

(** Every pattern of the sources lies in the fragment that [re] reads. *)
Example patterns_parse :
  forallb (fun p => match parse p with Some _ => true | None => false end)
    (flat_map snd hazard_patterns ++ flat_map snd severity_indicators
     ++ clean_text_patterns)
  = true.
Proof. vm_compute. reflexivity. Qed.

Ltac by_cases c := destruct c as [[] [] [] [] [] [] [] []]; reflexivity.

Lemma lower_char_not_upper (c : ascii) : isupper (lower_char c) = false.
Proof. by_cases c. Qed.

Lemma lower_char_fixed (c : ascii) : isupper c = false -> lower_char c = c.
Proof. unfold lower_char. now intros ->. Qed.

Lemma lower_fixed (s : text) :
  Forall (fun c => isupper c = false) s -> lower s = s.
Proof.
  induction 1 as [|c s Hc _ IH]; simpl; [reflexivity|].
  now rewrite lower_char_fixed, IH.
Qed.

Lemma lower_char_changes (c : ascii) : lower_char c = c -> isupper c = false.
Proof. intros H. rewrite <- H. apply lower_char_not_upper. Qed.

Lemma lower_unchanged (s : text) :
  lower s = s -> Forall (fun c => isupper c = false) s.
Proof.
  induction s as [|c s IH]; simpl; [constructor|].
  intros [= Hc Hs]. constructor; [now apply lower_char_changes|now apply IH].
Qed.

Lemma translate_delete_fixed (deleted s : text) :
  Forall (fun c => existsb (Ascii.eqb c) deleted = false) s ->
  translate_delete deleted s = s.
Proof.
  unfold translate_delete.
  induction 1 as [|c s Hc _ IH]; simpl; [reflexivity|].
  rewrite Hc. simpl. now rewrite IH.
Qed.

(** ** The matcher *)

Lemma In_firstn (A : Type) (n : nat) (l : list A) (x : A) :
  In x (firstn n l) -> In x l.
Proof.
  intros H. rewrite <- (firstn_skipn n l). apply in_or_app. now left.
Qed.

Lemma In_skipn (A : Type) (n : nat) (l : list A) (x : A) :
  In x (skipn n l) -> In x l.
Proof.
  intros H. rewrite <- (firstn_skipn n l). apply in_or_app. now right.
Qed.

Lemma suffix_refl (s : text) : suffix s s.
Proof. now exists []. Qed.

Lemma suffix_cons (c : ascii) (s' s : text) : suffix s' s -> suffix s' (c :: s).
Proof. intros [p ->]. now exists (c :: p). Qed.

Lemma suffix_trans (a b c : text) : suffix a b -> suffix b c -> suffix a c.
Proof. intros [p ->] [q ->]. exists (q ++ p). now rewrite app_assoc. Qed.

Lemma suffix_incl (s' s : text) : suffix s' s -> incl s' s.
Proof. intros [p ->]. now apply incl_appr, incl_refl. Qed.

Lemma suffix_length (s' s : text) : suffix s' s -> length s' <= length s.
Proof. intros [p ->]. rewrite length_app. lia. Qed.

Lemma rep_inv (R : Type) (p : ascii -> bool) (k : text -> option R) (x : R) :
  forall s, rep p s k = Some x -> exists s', k s' = Some x /\ suffix s' s.
Proof.
  induction s as [|c s IH]; simpl; intros H.
  - exists []. split; [assumption|apply suffix_refl].
  - destruct (p c).
    + destruct (rep p s k) as [y|] eqn:E.
      * injection H as ->. destruct (IH eq_refl) as (s' & Hk & Hs).
        exists s'. split; [assumption|now apply suffix_cons].
      * exists (c :: s). split; [assumption|apply suffix_refl].
    + exists (c :: s). split; [assumption|apply suffix_refl].
Qed.

Lemma re_m_inv (ic : bool) (R : Type) (r : regex) :
  forall s caps (k : text -> captures -> option R) x,
    re_m ic r s caps k = Some x ->
    exists s' caps',
      k s' caps' = Some x /\ suffix s' s /\ caps_within s caps caps'.
Proof.
  induction r as [|c|p|r1 IH1 r2 IH2|r1 IH1 r2 IH2|r1 IH1|p|n r1 IH1];
    simpl; intros s caps k x H.
  - exists s, caps. repeat split; [assumption|apply suffix_refl|].
    intros g t Hg. now left.
  - destruct s as [|a s]; [discriminate|].
    destruct (chr_eq ic a c); [|discriminate].
    exists s, caps. repeat split; [assumption|apply suffix_cons, suffix_refl|].
    intros g t Hg. now left.
  - destruct s as [|a s]; [discriminate|].
    destruct (p a); [|discriminate].
    exists s, caps. repeat split; [assumption|apply suffix_cons, suffix_refl|].
    intros g t Hg. now left.
  - apply IH1 in H as (s1 & c1 & H1 & S1 & W1).
    apply IH2 in H1 as (s2 & c2 & H2 & S2 & W2).
    exists s2, c2. repeat split; [assumption|eapply suffix_trans; eassumption|].
    intros g t Hg. destruct (W2 g t Hg) as [Hc|Hi].
    + now apply W1.
    + right. intros a Ha. now apply (suffix_incl S1), Hi.
  - destruct (re_m ic r1 s caps k) as [y|] eqn:E.
    + injection H as ->. now apply IH1.
    + now apply IH2.
  - destruct (re_m ic r1 s caps k) as [y|] eqn:E.
    + injection H as ->. now apply IH1.
    + exists s, caps. repeat split; [assumption|apply suffix_refl|].
      intros g t Hg. now left.
  - apply rep_inv in H as (s' & Hk & Hs).
    exists s', caps. repeat split; [assumption..|].
    intros g t Hg. now left.
  - apply IH1 in H as (s1 & c1 & H1 & S1 & W1).
    exists s1, ((n, firstn (length s - length s1) s) :: c1).
    repeat split; [assumption..|].
    intros g t Hg. simpl in Hg. destruct (g =? n).
    + injection Hg as <-. right. intros a Ha. eapply In_firstn; eassumption.
    + now apply W1.
Qed.

Lemma match_here_inv (ic : bool) (r : regex) (s : text) (n : nat)
    (caps : captures) :
  match_here ic r s = Some (n, caps) ->
  n <= length s /\ forall g t, group g caps = Some t -> incl t s.
Proof.
  unfold match_here. intros H.
  apply re_m_inv in H as (s' & caps' & Hk & Hs & Hw).
  injection Hk as <- <-. split; [lia|].
  intros g t Hg. destruct (Hw g t Hg) as [Hc|Hi]; [discriminate|assumption].
Qed.

(** ** The matcher finds exactly the words of the pattern *)

Lemma rep_sound (R : Type) (p : ascii -> bool) (k : text -> option R) (x : R) :
  forall s,
    rep p s k = Some x ->
    exists w s',
      s = w ++ s' /\ Forall (fun a => p a = true) w /\ k s' = Some x.
Proof.
  induction s as [|c s IH]; simpl; intros H.
  - exists [], []. repeat split; [constructor|assumption].
  - destruct (p c) eqn:Hc.
    + destruct (rep p s k) as [y|] eqn:E.
      * injection H as ->. destruct (IH eq_refl) as (w & s' & -> & Hw & Hk).
        exists (c :: w), s'. repeat split; [now constructor|assumption].
      * exists [], (c :: s). repeat split; [constructor|assumption].
    + exists [], (c :: s). repeat split; [constructor|assumption].
Qed.

Lemma rep_some (R : Type) (p : ascii -> bool) (k : text -> option R) :
  forall s, k s <> None -> rep p s k <> None.
Proof.
  intros [|c s] H; simpl; [assumption|].
  destruct (p c); [|assumption].
  now destruct (rep p s k).
Qed.

Lemma rep_complete (R : Type) (p : ascii -> bool) (k : text -> option R)
    (post : text) :
  k post <> None ->
  forall w, Forall (fun a => p a = true) w -> rep p (w ++ post) k <> None.
Proof.
  intros Hk. induction 1 as [|c w Hc _ IH]; simpl.
  - now apply rep_some.
  - rewrite Hc. destruct (rep p (w ++ post) k); [discriminate|contradiction].
Qed.

Lemma re_m_sound (ic : bool) (R : Type) (r : regex) :
  forall s caps (k : text -> captures -> option R) x,
    re_m ic r s caps k = Some x ->
    exists w s' caps',
      s = w ++ s' /\ matches ic r w /\ k s' caps' = Some x.
Proof.
  induction r as [|c|p|r1 IH1 r2 IH2|r1 IH1 r2 IH2|r1 IH1|p|n r1 IH1];
    simpl; intros s caps k x H.
  - exists [], s, caps. repeat split; [constructor|assumption].
  - destruct s as [|a s]; [discriminate|].
    destruct (chr_eq ic a c) eqn:E; [|discriminate].
    exists [a], s, caps. repeat split; [now constructor|assumption].
  - destruct s as [|a s]; [discriminate|].
    destruct (p a) eqn:E; [|discriminate].
    exists [a], s, caps. repeat split; [now constructor|assumption].
  - apply IH1 in H as (w1 & s1 & c1 & -> & M1 & H).
    apply IH2 in H as (w2 & s2 & c2 & -> & M2 & H).
    exists (w1 ++ w2), s2, c2.
    repeat split; [now rewrite app_assoc|now constructor|assumption].
  - destruct (re_m ic r1 s caps k) as [y|] eqn:E.
    + injection H as ->. apply IH1 in E as (w & s' & c' & -> & M & H).
      exists w, s', c'. repeat split; [now apply M_AltL|assumption].
    + apply IH2 in H as (w & s' & c' & -> & M & H).
      exists w, s', c'. repeat split; [now apply M_AltR|assumption].
  - destruct (re_m ic r1 s caps k) as [y|] eqn:E.
    + injection H as ->. apply IH1 in E as (w & s' & c' & -> & M & H).
      exists w, s', c'. repeat split; [now apply M_OptSome|assumption].
    + exists [], s, caps. repeat split; [apply M_OptNone|assumption].
  - apply rep_sound in H as (w & s' & -> & Hw & H).
    exists w, s', caps. repeat split; [now constructor|assumption].
  - apply IH1 in H as (w & s' & c' & -> & M & H).
    eexists w, s', _. repeat split; [now constructor|eassumption].
Qed.

Lemma re_m_complete (ic : bool) (R : Type) (r : regex) (w : text) :
  matches ic r w ->
  forall post caps (k : text -> captures -> option R),
    (forall caps', k post caps' <> None) ->
    re_m ic r (w ++ post) caps k <> None.
Proof.
  induction 1 as [|a c Hc|p a Hp|r1 r2 w1 w2 _ IH1 _ IH2|r1 r2 w _ IH
                 |r1 r2 w _ IH|r|r w _ IH|p w Hw|n r w _ IH];
    intros post caps k Hk; simpl.
  - apply Hk.
  - rewrite Hc. apply Hk.
  - rewrite Hp. apply Hk.
  - rewrite <- app_assoc. apply IH1. intros caps'. now apply IH2.
  - destruct (re_m ic r1 (w ++ post) caps k) eqn:E; [discriminate|].
    exfalso. exact (IH post caps k Hk E).
  - destruct (re_m ic r1 (w ++ post) caps k); [discriminate|]. now apply IH.
  - destruct (re_m ic r post caps k); [discriminate|]. apply Hk.
  - destruct (re_m ic r (w ++ post) caps k) eqn:E; [discriminate|].
    exfalso. exact (IH post caps k Hk E).
  - apply rep_complete; [apply Hk|assumption].
  - apply IH. intros caps'. apply Hk.
Qed.

Lemma match_here_complete (ic : bool) (r : regex) (w post : text) :
  matches ic r w -> match_here ic r (w ++ post) <> None.
Proof.
  intros H. unfold match_here. apply re_m_complete; [assumption|].
  discriminate.
Qed.

Lemma re_found_iff (ic : bool) (r : regex) (t : text) :
  re_found ic r t = true <->
  exists pre w post, t = pre ++ w ++ post /\ matches ic r w.
Proof.
  unfold re_found. split.
  - induction t as [|c t IH]; simpl.
    + destruct (match_here ic r []) as [[n caps]|] eqn:E; [|discriminate].
      intros _. apply re_m_sound in E as (w & s' & c' & Hs & M & _).
      now exists [], w, s'.
    + destruct (match_here ic r (c :: t)) as [[n caps]|] eqn:E.
      * intros _. apply re_m_sound in E as (w & s' & c' & Hs & M & _).
        now exists [], w, s'.
      * intros H. destruct (IH H) as (pre & w & post & -> & M).
        now exists (c :: pre), w, post.
  - intros (pre & w & post & -> & M).
    induction pre as [|c pre IH].
    + simpl. pose proof (match_here_complete post M) as H.
      destruct (w ++ post) as [|c t]; simpl;
        destruct (match_here ic r _) as [[n caps]|]; congruence.
    + simpl. now destruct (match_here ic r (c :: pre ++ w ++ post)) as [[n caps]|].
Qed.

Lemma re_found_occurs (ic : bool) (p : string) (t : text) :
  re_found ic (re p) t = true <-> occurs ic p t.
Proof. apply re_found_iff. Qed.

Lemma occurs_within (ic : bool) (p : string) (a t b : text) :
  occurs ic p t -> occurs ic p (a ++ t ++ b).
Proof.
  intros (pre & w & post & -> & M).
  exists (a ++ pre), w, (post ++ b). split; [|assumption].
  now rewrite <- !app_assoc.
Qed.

(** ** [re.sub] *)

Lemma expand_In (tpl : list repl_item) (caps : captures) (c : ascii) :
  In c (expand tpl caps) ->
  In c (tpl_chars tpl) \/ exists g t, group g caps = Some t /\ In c t.
Proof.
  unfold expand, tpl_chars.
  induction tpl as [|i tpl IH]; simpl; [tauto|].
  rewrite !in_app_iff. intros [H|H].
  - destruct i as [t|n]; [now left; left|].
    destruct (group n caps) as [t|] eqn:E; [|destruct H].
    right. now exists n, t.
  - destruct (IH H) as [H'|H']; [left; now right|now right].
Qed.

Lemma sub_from_In (r : regex) (tpl : list repl_item) (c : ascii) :
  forall s skip,
    In c (sub_from r tpl s skip) -> In c s \/ In c (tpl_chars tpl).
Proof.
  assert (Hexp : forall s n caps,
             match_here false r s = Some (n, caps) ->
             In c (expand tpl caps) -> In c s \/ In c (tpl_chars tpl)).
  { intros s n caps Hm Hc. apply expand_In in Hc as [Hc|(g & t & Hg & Hc)].
    - now right.
    - left. apply match_here_inv in Hm as [_ Hm]. now apply (Hm g t). }
  induction s as [|a s IH]; intros skip H; simpl in H.
  - destruct skip; [|destruct H].
    destruct (match_here false r []) as [[n caps]|] eqn:E; [|destruct H].
    now apply (Hexp [] n caps).
  - destruct skip as [|skip].
    + destruct (match_here false r (a :: s)) as [[[|n] caps]|] eqn:E.
      * apply in_app_or in H as [H|[H|H]].
        -- now apply (Hexp _ _ _ E).
        -- left. now left.
        -- destruct (IH _ H); [left; now right|now right].
      * apply in_app_or in H as [H|H].
        -- now apply (Hexp _ _ _ E).
        -- destruct (IH _ H); [left; now right|now right].
      * destruct H as [H|H]; [left; now left|].
        destruct (IH _ H); [left; now right|now right].
    + destruct (IH _ H); [left; now right|now right].
Qed.

Lemma re_sub_In (r : regex) (tpl : list repl_item) (s : text) (c : ascii) :
  In c (re_sub r tpl s) -> In c s \/ In c (tpl_chars tpl).
Proof. apply sub_from_In. Qed.

Lemma no_match_tail (r : regex) (c : ascii) (s : text) :
  no_match r (c :: s) -> no_match r s.
Proof. intros H t Ht. now apply H, suffix_cons. Qed.

Lemma re_sub_no_match (r : regex) (tpl : list repl_item) (s : text) :
  no_match r s -> re_sub r tpl s = s.
Proof.
  unfold re_sub. induction s as [|c s IH]; intros H; simpl.
  - now rewrite (H [] (suffix_refl _)).
  - rewrite (H _ (suffix_refl _)). f_equal. apply IH.
    eapply no_match_tail; eassumption.
Qed.

Lemma re_search_none (ic : bool) (r : regex) (s : text) :
  re_search ic r s = None ->
  forall t, suffix t s -> match_here ic r t = None.
Proof.
  induction s as [|c s IH]; simpl; intros H t [p Hp].
  - destruct p; [|discriminate]. simpl in Hp. subst t.
    destruct (match_here ic r []) as [[n caps]|]; [discriminate|reflexivity].
  - destruct (match_here ic r (c :: s)) as [[n caps]|] eqn:E; [discriminate|].
    destruct p as [|a p]; simpl in Hp.
    + now subst t.
    + injection Hp as _ Hp. apply IH; [assumption|now exists p].
Qed.

(** *** Repetition of one class *)

Lemma span_len_le (p : ascii -> bool) (s : text) : span_len p s <= length s.
Proof.
  induction s as [|c s IH]; simpl; [lia|]. destruct (p c); simpl; lia.
Qed.

Lemma rep_total (R : Type) (p : ascii -> bool) (g : text -> R) :
  forall s,
    rep p s (fun s' => Some (g s')) = Some (g (skipn (span_len p s) s)).
Proof.
  induction s as [|c s IH]; simpl; [reflexivity|].
  destruct (p c); [|reflexivity]. now rewrite IH.
Qed.

Lemma match_here_rep1 (ic : bool) (p : ascii -> bool) (s : text) :
  match_here ic (Rep1 p) s =
  match s with
  | c :: s' => if p c then Some (S (span_len p s'), []) else None
  | [] => None
  end.
Proof.
  unfold match_here, Rep1. simpl. destruct s as [|c s]; [reflexivity|].
  destruct (p c); [|reflexivity].
  rewrite (rep_total p (fun s' => (length (c :: s) - length s', @nil (nat * text)))).
  do 2 f_equal. rewrite length_skipn. cbn [length].
  pose proof (span_len_le p s). lia.
Qed.

Lemma sub_rep1_delete (p : ascii -> bool) :
  forall s n,
    n <= span_len p s ->
    sub_from (Rep1 p) [] s n = filter (fun c => negb (p c)) s.
Proof.
  induction s as [|c s IH]; intros n Hn.
  - destruct n; cbn [sub_from]; [|reflexivity].
    now rewrite match_here_rep1.
  - destruct n as [|n].
    + cbn [sub_from filter]. rewrite match_here_rep1.
      destruct (p c) eqn:Hc; cbn [negb expand flat_map app].
      * now apply IH.
      * f_equal. apply IH. lia.
    + cbn [sub_from filter span_len] in *.
      destruct (p c); [|lia]. cbn [negb]. apply IH. lia.
Qed.

Lemma re_sub_rep1_delete (p : ascii -> bool) (s : text) :
  re_sub (Rep1 p) [] s = filter (fun c => negb (p c)) s.
Proof. apply sub_rep1_delete. lia. Qed.

(** *** Whitespace runs *)

Lemma sub_spaces_head :
  forall s,
    span_len isspace
      (sub_from (Rep1 isspace) one_space s (span_len isspace s)) = 0.
Proof.
  induction s as [|c s IH]; [reflexivity|].
  cbn [span_len]. destruct (isspace c) eqn:Hc.
  - exact IH.
  - cbn [sub_from]. rewrite match_here_rep1, Hc. cbn [span_len].
    now rewrite Hc.
Qed.

Lemma sub_spaces_normal :
  forall s n,
    n <= span_len isspace s ->
    single_spaced (sub_from (Rep1 isspace) one_space s n).
Proof.
  induction s as [|c s IH]; intros n Hn.
  - destruct n; cbn [sub_from]; [|exact I]. rewrite match_here_rep1. exact I.
  - destruct n as [|n].
    + cbn [sub_from]. rewrite match_here_rep1.
      destruct (isspace c) eqn:Hc.
      * change (single_spaced
                  (" "%char :: sub_from (Rep1 isspace) one_space s
                                 (span_len isspace s))).
        split.
        -- intros _. split; [reflexivity|apply sub_spaces_head].
        -- now apply IH.
      * split; [congruence|]. apply IH. lia.
    + cbn [sub_from span_len] in *. destruct (isspace c); [|lia].
      apply IH. lia.
Qed.

Lemma sub_spaces_fixed (t : text) :
  single_spaced t -> re_sub (Rep1 isspace) one_space t = t.
Proof.
  unfold re_sub. induction t as [|c t IH]; intros H.
  - cbn [sub_from]. now rewrite match_here_rep1.
  - destruct H as [H1 H2]. cbn [sub_from]. rewrite match_here_rep1.
    destruct (isspace c) eqn:Hc.
    + destruct (H1 eq_refl) as [-> ->].
      change (" "%char :: sub_from (Rep1 isspace) one_space t 0
              = " "%char :: t).
      f_equal. now apply IH.
    + f_equal. now apply IH.
Qed.

Lemma span_len_app_zero (p : ascii -> bool) (a b : text) :
  span_len p (a ++ b) = 0 -> span_len p a = 0.
Proof.
  destruct a as [|c a]; [reflexivity|]. simpl. now destruct (p c).
Qed.

Lemma single_spaced_suffix (t s : text) :
  suffix t s -> single_spaced s -> single_spaced t.
Proof.
  intros [p ->]. induction p as [|c p IH]; simpl; [trivial|].
  intros [_ H]. now apply IH.
Qed.

Lemma single_spaced_prefix (a b : text) :
  single_spaced (a ++ b) -> single_spaced a.
Proof.
  induction a as [|c a IH]; simpl; [trivial|].
  intros [H1 H2]. split; [|now apply IH].
  intros Hc. destruct (H1 Hc) as [-> Hz]. split; [reflexivity|].
  eapply span_len_app_zero; eassumption.
Qed.

(** *** [strip] *)

Lemma lstrip_suffix (s : text) : suffix (lstrip s) s.
Proof.
  induction s as [|c s IH]; simpl; [apply suffix_refl|].
  destruct (isspace c); [now apply suffix_cons|apply suffix_refl].
Qed.

Lemma lstrip_head (s : text) : span_len isspace (lstrip s) = 0.
Proof.
  induction s as [|c s IH]; simpl; [reflexivity|].
  destruct (isspace c) eqn:Hc; [assumption|]. simpl. now rewrite Hc.
Qed.

Lemma lstrip_fixed (s : text) : span_len isspace s = 0 -> lstrip s = s.
Proof.
  destruct s as [|c s]; simpl; [reflexivity|].
  now destruct (isspace c).
Qed.

Lemma rstrip_prefix (s : text) : exists q, s = rstrip s ++ q.
Proof.
  unfold rstrip. destruct (lstrip_suffix (rev s)) as [p Hp].
  exists (rev p). rewrite <- rev_app_distr, <- Hp. now rewrite rev_involutive.
Qed.

Lemma rstrip_last (s t : text) (c : ascii) :
  rstrip s = t ++ [c] -> isspace c = false.
Proof.
  unfold rstrip. intros H.
  apply (f_equal (@rev ascii)) in H.
  rewrite rev_involutive, rev_app_distr in H. simpl in H.
  pose proof (lstrip_head (rev s)) as Hh. rewrite H in Hh. simpl in Hh.
  now destruct (isspace c).
Qed.

Lemma rstrip_fixed (s : text) :
  (forall t c, s = t ++ [c] -> isspace c = false) -> rstrip s = s.
Proof.
  unfold rstrip. intros H.
  destruct s as [|a s] using rev_ind; [reflexivity|].
  rewrite rev_app_distr. simpl. rewrite (H s a eq_refl).
  change (rev (a :: rev s) = s ++ [a]). simpl. now rewrite rev_involutive.
Qed.

Lemma strip_In (s : text) (c : ascii) : In c (strip s) -> In c s.
Proof.
  unfold strip. intros H.
  apply (suffix_incl (lstrip_suffix s)).
  destruct (rstrip_prefix (lstrip s)) as [q Hq]. rewrite Hq.
  apply in_or_app. now left.
Qed.

Lemma strip_head (s : text) : span_len isspace (strip s) = 0.
Proof.
  unfold strip. destruct (rstrip_prefix (lstrip s)) as [q Hq].
  pose proof (lstrip_head s) as H. rewrite Hq in H.
  eapply span_len_app_zero; eassumption.
Qed.

Lemma strip_last (s t : text) (c : ascii) :
  strip s = t ++ [c] -> isspace c = false.
Proof. apply rstrip_last. Qed.

Lemma strip_single_spaced (s : text) :
  single_spaced s -> single_spaced (strip s).
Proof.
  unfold strip. intros H.
  destruct (rstrip_prefix (lstrip s)) as [q Hq].
  apply single_spaced_prefix with (b := q). rewrite <- Hq.
  eapply single_spaced_suffix; [apply lstrip_suffix|assumption].
Qed.

Lemma strip_fixed (s : text) :
  span_len isspace s = 0 ->
  (forall t c, s = t ++ [c] -> isspace c = false) ->
  strip s = s.
Proof.
  unfold strip. intros H1 H2. rewrite (lstrip_fixed _ H1). now apply rstrip_fixed.
Qed.

(** ** [clean_text] *)

Lemma spaces_re_eq : spaces_re = Rep1 isspace.
Proof. reflexivity. Qed.

Lemma digits_re_eq : digits_re = Rep1 isdecimal.
Proof. reflexivity. Qed.

Lemma mention_re_eq : mention_re = Cat (Chr "@") (Rep1 isword).
Proof. reflexivity. Qed.

Lemma hashtag_re_eq :
  hashtag_re = Cat (Chr "#") (Grp 1 (Rep1 (fun a => negb (isspace a)))).
Proof. reflexivity. Qed.

Lemma no_match_without (c : ascii) (r : regex) (s : text) :
  ~ In c s -> no_match (Cat (Chr c) r) s.
Proof.
  intros Hc t Ht. unfold match_here. simpl.
  destruct t as [|a t]; [reflexivity|].
  unfold chr_eq. destruct (Ascii.eqb_spec a c) as [->|]; [|reflexivity].
  exfalso. apply Hc. apply (suffix_incl Ht). now left.
Qed.

Lemma no_match_rep1 (p : ascii -> bool) (s : text) :
  Forall (fun c => p c = false) s -> no_match (Rep1 p) s.
Proof.
  intros H t Ht. rewrite match_here_rep1.
  destruct t as [|a t]; [reflexivity|].
  rewrite Forall_forall in H. rewrite (H a); [reflexivity|].
  apply (suffix_incl Ht). now left.
Qed.

Lemma space_plain : plain_char " ".
Proof. repeat split. Qed.

Lemma clean_steps_plain (s : text) (c : ascii) :
  In c (clean_steps s) -> plain_char c.
Proof.
  unfold clean_steps. intros H.
  apply strip_In, re_sub_In in H as [H|H].
  2:{ destruct H as [<-|[]]. apply space_plain. }
  rewrite digits_re_eq, re_sub_rep1_delete in H.
  apply filter_In in H as [H Hd].
  unfold translate_delete in H. apply filter_In in H as [H Hp].
  apply re_sub_In in H as [H|[]].
  apply re_sub_In in H as [H|[]].
  apply re_sub_In in H as [H|[]].
  unfold lower in H. apply in_map_iff in H as (a & <- & _).
  repeat split.
  - apply lower_char_not_upper.
  - now destruct (isdecimal (lower_char a)).
  - unfold ispunct. now destruct (existsb _ punctuation).
Qed.

Lemma clean_steps_single_spaced (s : text) : single_spaced (clean_steps s).
Proof.
  unfold clean_steps. apply strip_single_spaced.
  rewrite spaces_re_eq. apply sub_spaces_normal. lia.
Qed.

Lemma clean_str_plain (s : text) : Forall plain_char (clean_str s).
Proof.
  destruct s as [|a s]; [constructor|].
  apply Forall_forall. intros c. apply clean_steps_plain.
Qed.

Lemma clean_str_single_spaced (s : text) : single_spaced (clean_str s).
Proof.
  destruct s as [|a s]; [exact I|apply clean_steps_single_spaced].
Qed.

Lemma clean_str_head (s : text) : span_len isspace (clean_str s) = 0.
Proof. destruct s as [|a s]; [reflexivity|apply strip_head]. Qed.

Lemma clean_str_last (s t : text) (c : ascii) :
  clean_str s = t ++ [c] -> isspace c = false.
Proof.
  destruct s as [|a s]; simpl.
  - now destruct t.
  - apply strip_last.
Qed.

(** C10, as amended.  The text returned by [clean_text] holds no
    uppercase letter of the alphabet, no decimal digit (no character that
    [\d] matches) and no character of [string.punctuation]; it neither
    starts nor ends with whitespace, no whitespace character is followed
    by another, every whitespace character in it is a single space, and
    [str.lower] leaves it unchanged. *)
Theorem clean_text_shape (x : pyobj) :
  Forall (fun c => isupper c = false /\ isdecimal c = false
                   /\ ispunct c = false) (clean_text x)
  /\ (forall c t, clean_text x = c :: t -> isspace c = false)
  /\ (forall t c, clean_text x = t ++ [c] -> isspace c = false)
  /\ (forall p a b q, clean_text x = p ++ a :: b :: q ->
                      isspace a = true -> isspace b = false)
  /\ (forall c, In c (clean_text x) -> isspace c = true -> c = " "%char)
  /\ lower (clean_text x) = clean_text x.
Proof.
  destruct x as [s|b]; simpl.
  2:{ repeat split.
      - constructor.
      - discriminate.
      - intros t c H. now destruct t.
      - intros p a c q H. now destruct p.
      - intros c []. }
  pose proof (clean_str_single_spaced s) as Hs.
  assert (Hlow : lower (clean_str s) = clean_str s).
  { apply lower_fixed. eapply Forall_impl; [|apply clean_str_plain].
    now intros c (Hc & _). }
  split; [apply clean_str_plain|].
  split.
  { intros c t H. pose proof (clean_str_head s) as Hh. rewrite H in Hh.
    simpl in Hh. now destruct (isspace c). }
  split; [apply clean_str_last|].
  split.
  - intros p a b q H Ha.
    assert (Hq : single_spaced (a :: b :: q)).
    { apply single_spaced_suffix with (s := clean_str s); [|assumption].
      exists p. assumption. }
    destruct Hq as [Hq _]. destruct (Hq Ha) as [_ Hz]. simpl in Hz.
    now destruct (isspace b).
  - split; [|exact Hlow].
    intros c Hc Hw. apply in_split in Hc as (p & q & Hpq).
    assert (Hq : single_spaced (c :: q)).
    { apply single_spaced_suffix with (s := clean_str s); [|assumption].
      exists p. assumption. }
    destruct Hq as [Hq _]. now destruct (Hq Hw).
Qed.

(** C10 as the specification states it fails on a report of a flooded
    area in square metres: the superscript two is a digit character, [\d]
    does not match it, and [clean_text] keeps it. *)
Lemma clean_text_keeps_superscript_digit :
  let x := PyStr (txt "Flooded area: 20 m" ++ [ascii_of_nat 178]) in
  clean_text x = txt "flooded area m" ++ [ascii_of_nat 178]
  /\ isdigit (ascii_of_nat 178) = true
  /\ In (ascii_of_nat 178) (clean_text x)
  /\ ~ Forall (fun c => isdigit c = false) (clean_text x).
Proof.
  intros x.
  assert (E : clean_text x = txt "flooded area m" ++ [ascii_of_nat 178])
    by (vm_compute; reflexivity).
  assert (Hin : In (ascii_of_nat 178) (clean_text x)).
  { rewrite E. apply in_or_app. right. now left. }
  split; [exact E|]. split; [reflexivity|]. split; [exact Hin|].
  intros H. rewrite Forall_forall in H. specialize (H _ Hin).
  discriminate.
Qed.

(** C10 at a report: its cleaned text starts with "h", ends with "d" and
    holds one space. *)
Lemma clean_text_shape_witness :
  let x := PyStr (txt "  Hello,   WORLD 42! ") in
  clean_text x = txt "hello world"
  /\ isspace "h" = false /\ isspace "d" = false
  /\ isspace "w" = false.
Proof.
  intros x.
  destruct (clean_text_shape x) as (_ & Hhead & Hlast & Hpair & _).
  split; [vm_compute; reflexivity|].
  split; [apply (Hhead "h"%char (txt "ello world")); vm_compute; reflexivity|].
  split; [apply (Hlast (txt "hello worl") "d"%char); vm_compute; reflexivity|].
  apply (Hpair (txt "hello") " "%char "w"%char (txt "orld"));
    vm_compute; reflexivity.
Defined.

(** *** Cleaning cleaned text *)

Lemma plain_not_In (c : ascii) (s : text) :
  Forall plain_char s -> ispunct c = true -> ~ In c s.
Proof.
  intros H Hc Hin. rewrite Forall_forall in H.
  destruct (H c Hin) as (_ & _ & Hp). congruence.
Qed.

Lemma clean_steps_fixed (y : text) :
  Forall plain_char y ->
  single_spaced y ->
  span_len isspace y = 0 ->
  (forall t c, y = t ++ [c] -> isspace c = false) ->
  re_search false url_re y = None ->
  clean_steps y = y.
Proof.
  intros Hp Hs Hh Hl Hu. unfold clean_steps.
  rewrite lower_fixed.
  2:{ eapply Forall_impl; [|exact Hp]. now intros c (H & _). }
  rewrite (re_sub_no_match (r := url_re)).
  2:{ intros t Ht. eapply re_search_none; eassumption. }
  rewrite (re_sub_no_match (r := mention_re)).
  2:{ rewrite mention_re_eq. apply no_match_without. now apply plain_not_In. }
  rewrite (re_sub_no_match (r := hashtag_re)).
  2:{ rewrite hashtag_re_eq. apply no_match_without. now apply plain_not_In. }
  rewrite translate_delete_fixed.
  2:{ eapply Forall_impl; [|exact Hp]. now intros c (_ & _ & H). }
  rewrite (re_sub_no_match (r := digits_re)).
  2:{ rewrite digits_re_eq. apply no_match_rep1.
      eapply Forall_impl; [|exact Hp]. now intros c (_ & H & _). }
  rewrite spaces_re_eq.
  change [RLit (txt " ")] with one_space.
  rewrite sub_spaces_fixed by assumption.
  now apply strip_fixed.
Qed.

Lemma clean_str_fixed (s : text) :
  re_search false url_re (clean_str s) = None ->
  clean_str (clean_str s) = clean_str s.
Proof.
  intros Hu. destruct (clean_str s) as [|a y] eqn:E; [reflexivity|].
  change (clean_steps (a :: y) = a :: y). rewrite <- E in *.
  apply clean_steps_fixed.
  - apply clean_str_plain.
  - apply clean_str_single_spaced.
  - apply clean_str_head.
  - apply clean_str_last.
  - assumption.
Qed.

Lemma try_map_fixed (f : text -> option text) :
  lemmas_fixed f ->
  forall l l', try_map f l = Some l' -> try_map f l' = Some l'.
Proof.
  intros Hf. induction l as [|t l IH]; simpl; intros l' H.
  - now injection H as <-.
  - destruct (f t) as [t'|] eqn:Et; [|discriminate].
    destruct (try_map f l) as [m|]; [|discriminate].
    injection H as <-. simpl. now rewrite (Hf _ _ Et), (IH m eq_refl).
Qed.

Lemma try_map_length (A B : Type) (f : A -> option B) :
  forall l l', try_map f l = Some l' -> length l' = length l.
Proof.
  induction l as [|t l IH]; simpl; intros l' H.
  - now injection H as <-.
  - destruct (f t); [|discriminate].
    destruct (try_map f l) as [m|]; [|discriminate].
    injection H as <-. simpl. now rewrite (IH m eq_refl).
Qed.

Lemma lemmatize_tokens_twice (self : NLPProcessor)
    (lemmatize : text -> option text) (toks : list text) :
  lemmatizer self = Some lemmatize ->
  lemmas_fixed lemmatize ->
  lemmatize_tokens self (lemmatize_tokens self toks)
  = lemmatize_tokens self toks.
Proof.
  intros Hl Hf. unfold lemmatize_tokens. rewrite Hl.
  destruct toks as [|t toks]; [reflexivity|].
  destruct (try_map lemmatize (t :: toks)) as [l|] eqn:E.
  - pose proof (try_map_length _ _ E) as Hlen.
    destruct l as [|a l]; [discriminate|].
    now rewrite (try_map_fixed Hf _ E).
  - now rewrite E.
Qed.

(** *** Cleaning text in which the URL pattern matches *)

Lemma matches_nil (ic : bool) (r : regex) (w : text) :
  matches ic r w -> w = [] -> nullable r = true.
Proof.
  induction 1 as [|a c Hc|p a Hp|r1 r2 w1 w2 _ IH1 _ IH2|r1 r2 w _ IH
                 |r1 r2 w _ IH|r|r w _ IH|p w Hw|n r w _ IH];
    simpl; intros E; try reflexivity; try discriminate.
  - apply app_eq_nil in E as [E1 E2]. now rewrite IH1, IH2.
  - now rewrite IH.
  - rewrite IH by assumption. apply orb_true_r.
  - now apply IH.
Qed.

Lemma match_here_word (ic : bool) (r : regex) (t : text) (n : nat)
    (caps : captures) :
  match_here ic r t = Some (n, caps) ->
  exists w s', t = w ++ s' /\ matches ic r w /\ n = length w.
Proof.
  unfold match_here. intros H.
  apply re_m_sound in H as (w & s' & caps' & -> & M & H).
  injection H as <- _. exists w, s'. repeat split; [assumption|].
  rewrite length_app. lia.
Qed.

Lemma match_here_nonempty (ic : bool) (r : regex) (t : text) (n : nat)
    (caps : captures) :
  nullable r = false -> match_here ic r t = Some (n, caps) -> n <> 0.
Proof.
  intros Hr H. apply match_here_word in H as (w & s' & _ & M & ->).
  destruct w as [|a w]; [|discriminate].
  rewrite (matches_nil M eq_refl) in Hr. discriminate.
Qed.

Lemma re_search_some (ic : bool) (r : regex) (s : text) :
  re_search ic r s <> None ->
  exists t n caps, suffix t s /\ match_here ic r t = Some (n, caps).
Proof.
  induction s as [|c s IH]; simpl.
  - destruct (match_here ic r []) as [[n caps]|] eqn:E; [|congruence].
    intros _. exists [], n, caps. split; [apply suffix_refl|assumption].
  - destruct (match_here ic r (c :: s)) as [[n caps]|] eqn:E.
    + intros _. exists (c :: s), n, caps.
      split; [apply suffix_refl|assumption].
    + intros H. destruct (IH H) as (t & n & caps & Ht & Hm).
      exists t, n, caps. split; [now apply suffix_cons|assumption].
Qed.

Lemma sub_from_delete_length (r : regex) :
  forall s skip, length (sub_from r [] s skip) <= length s.
Proof.
  induction s as [|c s IH]; intros skip; cbn [sub_from].
  - destruct skip; [|simpl; lia].
    destruct (match_here false r []) as [[n caps]|]; simpl; lia.
  - destruct skip as [|skip].
    + destruct (match_here false r (c :: s)) as [[[|n] caps]|];
        cbn [expand flat_map app length].
      * specialize (IH 0). lia.
      * specialize (IH n). lia.
      * specialize (IH 0). lia.
    + specialize (IH skip). simpl. lia.
Qed.

Lemma re_sub_delete_shorter (r : regex) :
  forall s,
    (exists t n caps,
        suffix t s /\ match_here false r t = Some (S n, caps)) ->
    length (re_sub r [] s) < length s.
Proof.
  unfold re_sub. induction s as [|c s IH]; intros (t & n & caps & Ht & Hm).
  - destruct Ht as [p Hp]. symmetry in Hp.
    apply app_eq_nil in Hp as [_ ->].
    apply match_here_inv in Hm as [Hm _]. simpl in Hm. lia.
  - assert (Htail : match_here false r (c :: s) <> Some (S n, caps) ->
                    length (sub_from r [] s 0) < length s).
    { intros Hne. apply IH. exists t, n, caps. split; [|assumption].
      destruct Ht as [[|a p] Hp]; simpl in Hp.
      - subst t. contradiction.
      - injection Hp as _ ->. now exists p. }
    cbn [sub_from].
    destruct (match_here false r (c :: s)) as [[[|m] caps']|] eqn:E;
      cbn [expand flat_map app length].
    + assert (length (sub_from r [] s 0) < length s)
        by (apply Htail; discriminate). lia.
    + pose proof (sub_from_delete_length r s m). lia.
    + assert (length (sub_from r [] s 0) < length s)
        by (apply Htail; discriminate). lia.
Qed.

Lemma sub_spaces_length :
  forall s skip,
    length (sub_from (Rep1 isspace) one_space s skip) <= length s.
Proof.
  induction s as [|c s IH]; intros skip; cbn [sub_from].
  - destruct skip; [|simpl; lia]. rewrite match_here_rep1. simpl. lia.
  - destruct skip as [|skip].
    + rewrite match_here_rep1. destruct (isspace c).
      * change (length (" "%char :: sub_from (Rep1 isspace) one_space s
                                      (span_len isspace s))
                <= length (c :: s)).
        specialize (IH (span_len isspace s)). simpl. lia.
      * specialize (IH 0). simpl. lia.
    + specialize (IH skip). simpl. lia.
Qed.

Lemma strip_length (s : text) : length (strip s) <= length s.
Proof.
  unfold strip. destruct (rstrip_prefix (lstrip s)) as [q Hq].
  pose proof (suffix_length (lstrip_suffix s)) as H1.
  apply (f_equal (@length ascii)) in Hq. rewrite length_app in Hq. lia.
Qed.

Lemma filter_length (A : Type) (f : A -> bool) (l : list A) :
  length (filter f l) <= length l.
Proof.
  induction l as [|a l IH]; simpl; [lia|]. destruct (f a); simpl; lia.
Qed.

Lemma url_re_not_nullable : nullable url_re = false.
Proof. reflexivity. Qed.

Lemma clean_steps_shrinks (y : text) :
  Forall plain_char y ->
  re_search false url_re y <> None ->
  length (clean_steps y) < length y.
Proof.
  intros Hp Hu. unfold clean_steps.
  rewrite lower_fixed.
  2:{ eapply Forall_impl; [|exact Hp]. now intros c (H & _). }
  set (u := re_sub url_re [] y).
  assert (Hlen : length u < length y).
  { apply re_sub_delete_shorter.
    apply re_search_some in Hu as (t & n & caps & Ht & Hm).
    destruct n as [|n].
    - now pose proof (@match_here_nonempty false url_re t 0 caps
                        url_re_not_nullable Hm).
    - now exists t, n, caps. }
  set (v := re_sub mention_re [] u).
  assert (Hv : length v <= length u) by apply sub_from_delete_length.
  assert (Hpv : Forall plain_char v).
  { apply Forall_forall. intros c Hc. rewrite Forall_forall in Hp.
    apply re_sub_In in Hc as [Hc|[]].
    apply re_sub_In in Hc as [Hc|[]]. now apply Hp. }
  rewrite (re_sub_no_match (r := hashtag_re)).
  2:{ rewrite hashtag_re_eq. apply no_match_without. now apply plain_not_In. }
  pose proof (filter_length
                (fun c => negb (existsb (Ascii.eqb c) punctuation)) v) as H1.
  fold (translate_delete punctuation v) in H1.
  pose proof (sub_from_delete_length digits_re
                (translate_delete punctuation v) 0) as H2.
  fold (re_sub digits_re [] (translate_delete punctuation v)) in H2.
  pose proof (strip_length
                (re_sub spaces_re [RLit (txt " ")]
                   (re_sub digits_re [] (translate_delete punctuation v))))
    as H3.
  pose proof (sub_spaces_length
                (re_sub digits_re [] (translate_delete punctuation v)) 0)
    as H4.
  rewrite spaces_re_eq in H3 |- *.
  change [RLit (txt " ")] with one_space in H3 |- *.
  fold (re_sub (Rep1 isspace) one_space
          (re_sub digits_re [] (translate_delete punctuation v))) in H4.
  lia.
Qed.

Lemma clean_str_changed (s : text) :
  re_search false url_re (clean_str s) <> None ->
  clean_str (clean_str s) <> clean_str s.
Proof.
  intros Hu E.
  destruct (clean_str s) as [|a y] eqn:Es; [now apply Hu|].
  change (clean_steps (a :: y) = a :: y) in E. rewrite <- Es in *.
  pose proof (clean_steps_shrinks (clean_str_plain s) Hu) as H.
  rewrite E in H. lia.
Qed.

(** C4, as amended.  Cleaning cleaned text changes nothing exactly when
    the URL pattern has no match in the cleaned text, and lemmatizing
    lemmas changes nothing whenever the dictionary lemmatizer maps each of
    its lemmas to itself (or no lemmatizer was loaded). *)
Theorem clean_text_idempotent_without_urls :
  (forall x,
      clean_text (PyStr (clean_text x)) = clean_text x
      <-> re_search false url_re (clean_text x) = None)
  /\ (forall self lemmatize toks,
         lemmatizer self = Some lemmatize ->
         lemmas_fixed lemmatize ->
         lemmatize_tokens self (lemmatize_tokens self toks)
         = lemmatize_tokens self toks)
  /\ (forall self toks,
         lemmatizer self = None -> lemmatize_tokens self toks = toks).
Proof.
  split; [|split].
  - intros [s|b]; simpl; [|now split].
    split; [|apply clean_str_fixed].
    intros E. destruct (re_search false url_re (clean_str s)) eqn:Eu;
      [|reflexivity].
    exfalso. apply (clean_str_changed s); [|assumption].
    rewrite Eu. discriminate.
  - intros self lemmatize toks. apply lemmatize_tokens_twice.
  - intros self toks H. unfold lemmatize_tokens. rewrite H.
    now destruct toks.
Qed.

Lemma text_eqb_eq (a b : text) : text_eqb a b = true <-> a = b.
Proof.
  revert b. induction a as [|x a IH]; intros [|y b]; simpl;
    try (split; [discriminate|discriminate]); [tauto|].
  rewrite andb_true_iff, Ascii.eqb_eq, IH.
  split; [intros [-> ->]; reflexivity|intros [= -> ->]; auto].
Qed.

Lemma sample_lemmas_fixed : lemmas_fixed sample_lemmatize.
Proof.
  intros t t'. unfold sample_lemmatize.
  destruct (text_eqb t (txt "waves")) eqn:E; intros [= <-].
  - reflexivity.
  - now rewrite E.
Qed.

(** The amended C4 at a report and at the sample lemmatizer. *)
Lemma clean_text_idempotent_witness :
  let x := PyStr (txt "Major FLOODING near #Pier9, waves 3m!") in
  clean_text (PyStr (clean_text x)) = clean_text x
  /\ lemmatize_tokens sample_processor
       (lemmatize_tokens sample_processor [txt "waves"; txt "pier"])
     = lemmatize_tokens sample_processor [txt "waves"; txt "pier"].
Proof.
  destruct clean_text_idempotent_without_urls as (H1 & H2 & _).
  split.
  - apply H1. vm_compute. reflexivity.
  - apply (H2 sample_processor sample_lemmatize); [reflexivity|].
    exact sample_lemmas_fixed.
Defined.

(** C4 fails as stated: the obfuscated address "w.w.w.coast.org" is
    cleaned to "wwwcoastorg", which a second cleaning removes as a URL. *)
Lemma clean_text_not_idempotent :
  let x := PyStr (txt "w.w.w.coast.org flooded") in
  clean_text x = txt "wwwcoastorg flooded"
  /\ clean_text (PyStr (clean_text x)) = txt "flooded"
  /\ clean_text (PyStr (clean_text x)) <> clean_text x.
Proof.
  vm_compute. repeat split. discriminate.
Qed.

(** ** [preprocess_text] on empty and non-string input *)

Lemma preprocess_text_empty (self : NLPProcessor) :
  preprocess_text self (PyStr []) =
    {| original_text := PyStr []; cleaned_text := []; tokens := [];
       tokens_no_stopwords := []; lemmatized_tokens := [];
       processed_text := [] |}.
Proof.
  unfold preprocess_text, lemmatize_tokens. simpl.
  now destruct (lemmatizer self).
Qed.

Lemma preprocess_text_other (self : NLPProcessor) (truthy : bool) :
  preprocess_text self (PyOther truthy) =
    {| original_text := PyOther truthy; cleaned_text := []; tokens := [];
       tokens_no_stopwords := []; lemmatized_tokens := [];
       processed_text := [] |}.
Proof.
  unfold preprocess_text, lemmatize_tokens. simpl.
  now destruct (lemmatizer self).
Qed.

(** C9.  For the empty string and for any value that is not a string,
    [preprocess_text] returns, whatever the tokenizer and the lemmatizer
    do, the record with empty cleaned text and empty token, stopword-free
    and lemma lists. *)
Theorem preprocess_text_total (self : NLPProcessor) :
  preprocess_text self (PyStr []) =
    {| original_text := PyStr []; cleaned_text := []; tokens := [];
       tokens_no_stopwords := []; lemmatized_tokens := [];
       processed_text := [] |}
  /\ forall truthy,
       preprocess_text self (PyOther truthy) =
         {| original_text := PyOther truthy; cleaned_text := [];
            tokens := []; tokens_no_stopwords := [];
            lemmatized_tokens := []; processed_text := [] |}.
Proof.
  split; [apply preprocess_text_empty|apply preprocess_text_other].
Qed.

(** ** [analyze_sentiment] *)

Lemma softmax_pair (l0 l1 : R) :
  softmax [l0; l1]
  = [(exp l0 / (exp l0 + exp l1))%R; (exp l1 / (exp l0 + exp l1))%R].
Proof.
  unfold softmax. cbn [map fold_right].
  now replace (exp l0 + (exp l1 + 0))%R with (exp l0 + exp l1)%R by ring.
Qed.

Lemma softmax_pair_sum (l0 l1 : R) :
  (exp l0 / (exp l0 + exp l1) + exp l1 / (exp l0 + exp l1) = 1)%R.
Proof.
  pose proof (exp_pos l0). pose proof (exp_pos l1). field. Lra.lra.
Qed.

Lemma softmax_pair_order (l0 l1 : R) :
  (exp l0 / (exp l0 + exp l1) < exp l1 / (exp l0 + exp l1))%R
  <-> (l0 < l1)%R.
Proof.
  pose proof (exp_pos l0) as H0. pose proof (exp_pos l1) as H1.
  assert (Ht : (0 < / (exp l0 + exp l1))%R)
    by (apply Rinv_0_lt_compat; Lra.lra).
  unfold Rdiv. split.
  - intros H. apply exp_lt_inv.
    now apply Rmult_lt_reg_r with (r := (/ (exp l0 + exp l1))%R).
  - intros H. apply Rmult_lt_compat_r; [exact Ht|].
    now apply exp_increasing.
Qed.

Lemma analyze_sentiment_scored (self : NLPProcessor) (c : ascii)
  (s : text) (l0 l1 : R) :
  sentiment_logits self (c :: s) = Some (l0, l1) ->
  analyze_sentiment self (PyStr (c :: s))
  = {| negative := (exp l0 / (exp l0 + exp l1))%R;
       positive := (exp l1 / (exp l0 + exp l1))%R;
       label := if Rlt_dec (exp l0 / (exp l0 + exp l1))
                           (exp l1 / (exp l0 + exp l1))
                then positive_label else negative_label |}.
Proof.
  intros E. cbn [analyze_sentiment]. rewrite E, softmax_pair.
  reflexivity.
Qed.

Lemma sentiment_sums_to_one (self : NLPProcessor) (x : pyobj) :
  (negative (analyze_sentiment self x)
   + positive (analyze_sentiment self x) = 1)%R.
Proof.
  assert (Hd : (negative default_sentiment
                + positive default_sentiment = 1)%R)
    by (cbn [negative positive default_sentiment]; ring).
  destruct x as [[|c s]|b]; try exact Hd.
  destruct (sentiment_logits self (c :: s)) as [[l0 l1]|] eqn:E.
  - rewrite (analyze_sentiment_scored self c s E).
    cbn [negative positive]. apply softmax_pair_sum.
  - cbn [analyze_sentiment]. rewrite E. exact Hd.
Qed.

(** C5.  On the empty string, on a value that is not a string and on any
    failure of the tokenizer or of the model, [analyze_sentiment] returns
    negative 1, positive 0 and the label "negative"; on the logits of the
    model it returns their softmax, labelled "positive" exactly when the
    second logit is the larger one; and for every input the two
    probabilities returned sum to one, hence within 1e-6 of one.  The
    probabilities are real numbers: the rounding of float32, for which the
    tolerance is there, is not modelled. *)
Theorem analyze_sentiment_safe (self : NLPProcessor) :
  default_sentiment =
    {| positive := 0%R; negative := 1%R; label := negative_label |}
  /\ analyze_sentiment self (PyStr []) = default_sentiment
  /\ (forall truthy, analyze_sentiment self (PyOther truthy)
                     = default_sentiment)
  /\ (forall s, sentiment_logits self s = None ->
                analyze_sentiment self (PyStr s) = default_sentiment)
  /\ (forall c s l0 l1,
        sentiment_logits self (c :: s) = Some (l0, l1) ->
        let r := analyze_sentiment self (PyStr (c :: s)) in
        negative r = (exp l0 / (exp l0 + exp l1))%R
        /\ positive r = (exp l1 / (exp l0 + exp l1))%R
        /\ (label r = positive_label <-> (l0 < l1)%R))
  /\ (forall x,
        (negative (analyze_sentiment self x)
         + positive (analyze_sentiment self x) = 1)%R
        /\ (Rabs (negative (analyze_sentiment self x)
                  + positive (analyze_sentiment self x) - 1)
            <= 1 / 1000000)%R).
Proof.
  split; [reflexivity|]. split; [reflexivity|]. split; [reflexivity|].
  split; [|split].
  - intros [|c s] H; [reflexivity|]. cbn [analyze_sentiment]. now rewrite H.
  - intros c s l0 l1 E r. subst r.
    rewrite (analyze_sentiment_scored self c s E). cbn [negative positive label].
    split; [reflexivity|]. split; [reflexivity|].
    rewrite <- softmax_pair_order.
    destruct (Rlt_dec (exp l0 / (exp l0 + exp l1))
                      (exp l1 / (exp l0 + exp l1))) as [Hlt|Hge].
    + split; [now intros _|reflexivity].
    + split; [discriminate|intros Hlt; now elim Hge].
  - intros x. pose proof (sentiment_sums_to_one self x) as H.
    split; [exact H|]. rewrite H.
    replace (1 - 1)%R with 0%R by ring. rewrite Rabs_R0. Lra.lra.
Qed.

(** C5 at the sample processor: a report on which the model fails, and a
    scored report. *)
Lemma analyze_sentiment_witness :
  analyze_sentiment sample_processor (PyStr (txt "!!! help"))
  = default_sentiment
  /\ (let r := analyze_sentiment sample_processor (PyStr (txt "calm sea")) in
      negative r = (exp 1 / (exp 1 + exp 0))%R
      /\ positive r = (exp 0 / (exp 1 + exp 0))%R
      /\ (label r = positive_label <-> (1 < 0)%R)).
Proof.
  destruct (analyze_sentiment_safe sample_processor)
    as (_ & _ & _ & Hfail & Hscored & _).
  split.
  - apply Hfail. reflexivity.
  - exact (Hscored "c"%char (txt "alm sea") 1%R 0%R eq_refl).
Defined.

(** ** The rolling history *)

Lemma slice_last_length (A : Type) (n : nat) (l : list A) :
  length (slice_last n l) <= n.
Proof. unfold slice_last. rewrite length_skipn. lia. Qed.

Lemma slice_last_all (A : Type) (n : nat) (l : list A) :
  length l <= n -> slice_last n l = l.
Proof.
  unfold slice_last. intros H.
  replace (length l - n) with 0 by lia. reflexivity.
Qed.

Lemma slice_last_app (A : Type) (n : nat) (a b : list A) :
  slice_last n (slice_last n a ++ b) = slice_last n (a ++ b).
Proof.
  destruct (Nat.le_gt_cases (length a) n) as [H|H].
  - now rewrite (slice_last_all a H).
  - unfold slice_last.
    rewrite !length_app, length_skipn.
    replace (length a - (length a - n) + length b - n) with (length b)
      by lia.
    replace (length a + length b - n) with (length b + (length a - n))
      by lia.
    rewrite <- skipn_skipn. f_equal.
    rewrite skipn_app.
    replace (length a - n - length a) with 0 by lia. reflexivity.
Qed.

Lemma extend_history_eq (history batch : list hazard_entry) :
  extend_history history batch = slice_last history_cap (history ++ batch).
Proof.
  unfold extend_history.
  destruct (Nat.ltb_spec history_cap (length (history ++ batch))) as [H|H].
  - reflexivity.
  - symmetry. now apply slice_last_all.
Qed.

Lemma collect_history (self : Dashboard) (c : collection)
    (seen : list hazard_entry) :
  hazard_history self = slice_last history_cap seen ->
  hazard_history (collect_and_analyze_data self c)
  = slice_last history_cap (seen ++ appended c).
Proof.
  intros H. destruct c as [reports| |now]; simpl.
  - now rewrite extend_history_eq, H, slice_last_app.
  - now rewrite app_nil_r.
  - now rewrite extend_history_eq, H, slice_last_app.
Qed.

Lemma refresh_history (runs : list collection) :
  forall (self : Dashboard) (seen : list hazard_entry),
    hazard_history self = slice_last history_cap seen ->
    hazard_history (refresh_all self runs)
    = slice_last history_cap (seen ++ flat_map appended runs).
Proof.
  unfold refresh_all.
  induction runs as [|c runs IH]; intros self seen H; simpl.
  - now rewrite app_nil_r.
  - rewrite app_assoc. apply IH. now apply collect_history.
Qed.

(** C8.  After any sequence of refreshes of a new dashboard the history
    holds at most 1000 entries, and it holds the most recent entries of
    all those appended, in the order of appending: what was dropped is a
    prefix of the appended entries, the oldest ones. *)
Theorem history_bounded_fifo (runs : list collection) :
  let history := hazard_history (refresh_all new_dashboard runs) in
  let all := flat_map appended runs in
  length history <= 1000
  /\ history = skipn (length all - 1000) all
  /\ exists evicted, all = evicted ++ history.
Proof.
  intros history all.
  assert (H : history = slice_last history_cap all).
  { unfold history. now rewrite (refresh_history runs new_dashboard []). }
  split; [rewrite H; apply slice_last_length|].
  split; [exact H|].
  exists (firstn (length all - 1000) all).
  rewrite H. unfold slice_last, history_cap. now rewrite firstn_skipn.
Qed.

(** ** Severity resolution *)

Lemma nonempty_app (A : Type) (a b : list A) :
  nonempty (a ++ b) = nonempty a || nonempty b.
Proof. now destruct a. Qed.

Lemma matched_spans_nonempty (ic : bool) (ps : list string) (t : text) :
  nonempty (matched_spans ic ps t) = true <->
  exists p, In p ps /\ occurs ic p t.
Proof.
  unfold matched_spans. induction ps as [|q ps IH]; simpl.
  - split; [discriminate|now intros (p & [] & _)].
  - rewrite nonempty_app, orb_true_iff, IH. split.
    + intros [H|(p & Hp & Ho)].
      * exists q. split; [now left|]. apply re_found_occurs.
        unfold re_found. now destruct (re_search ic (re q) t).
      * exists p. split; [now right|assumption].
    + intros (p & [<-|Hp] & Ho).
      * left. apply re_found_occurs in Ho. unfold re_found in Ho.
        now destruct (re_search ic (re q) t).
      * right. now exists p.
Qed.

Lemma matched_spans_empty (ic : bool) (ps : list string) (t : text) :
  ~ (exists p, In p ps /\ occurs ic p t) ->
  nonempty (matched_spans ic ps t) = false.
Proof.
  intros H. destruct (nonempty (matched_spans ic ps t)) eqn:E; [|reflexivity].
  now apply matched_spans_nonempty in E.
Qed.

Lemma determine_severity_eq (ic : bool) (t : text) :
  determine_severity ic t =
  if nonempty (matched_spans ic (patterns_of severity_indicators "high") t)
  then "high"%string
  else if nonempty
            (matched_spans ic (patterns_of severity_indicators "medium") t)
  then "medium"%string
  else if nonempty
            (matched_spans ic (patterns_of severity_indicators "low") t)
  then "low"%string
  else "unknown"%string.
Proof. reflexivity. Qed.

Lemma determine_severity_high (ic : bool) (t : text) :
  tier_present ic "high" t -> determine_severity ic t = "high"%string.
Proof.
  rewrite determine_severity_eq. unfold tier_present. intros H.
  apply matched_spans_nonempty in H. now rewrite H.
Qed.

(** C1.  Severity resolution returns "high" when an indicator of the high
    tier occurs in the text, else "medium" when one of the medium tier
    occurs, else "low" when one of the low tier occurs, else "unknown";
    and "minor update on beach conditions" resolves to "low". *)
Theorem determine_severity_precedence (ic : bool) (t : text) :
  (tier_present ic "high" t -> determine_severity ic t = "high"%string)
  /\ (~ tier_present ic "high" t -> tier_present ic "medium" t ->
      determine_severity ic t = "medium"%string)
  /\ (~ tier_present ic "high" t -> ~ tier_present ic "medium" t ->
      tier_present ic "low" t -> determine_severity ic t = "low"%string)
  /\ (~ tier_present ic "high" t -> ~ tier_present ic "medium" t ->
      ~ tier_present ic "low" t ->
      determine_severity ic t = "unknown"%string)
  /\ determine_severity ic (txt "minor update on beach conditions")
     = "low"%string.
Proof.
  split; [apply determine_severity_high|].
  rewrite determine_severity_eq. unfold tier_present.
  repeat split.
  - intros H1 H2. apply matched_spans_empty in H1.
    apply matched_spans_nonempty in H2. now rewrite H1, H2.
  - intros H1 H2 H3. apply matched_spans_empty in H1, H2.
    apply matched_spans_nonempty in H3. now rewrite H1, H2, H3.
  - intros H1 H2 H3. apply matched_spans_empty in H1, H2, H3.
    now rewrite H1, H2, H3.
  - destruct ic; vm_compute; reflexivity.
Qed.

(** C1 at three reports, one for each tier. *)
Lemma determine_severity_witness :
  determine_severity true (txt "Severe flooding, moderate damage expected")
  = "high"%string
  /\ determine_severity true (txt "surge warning for the bay")
     = "medium"%string
  /\ determine_severity true (txt "slight swell") = "low"%string.
Proof.
  assert (Habsent : forall tier t,
             nonempty (matched_spans true
                         (patterns_of severity_indicators tier) t) = false ->
             ~ tier_present true tier t).
  { intros tier t E H. apply matched_spans_nonempty in H. congruence. }
  assert (Hpresent : forall tier t,
             nonempty (matched_spans true
                         (patterns_of severity_indicators tier) t) = true ->
             tier_present true tier t).
  { intros tier t E. now apply matched_spans_nonempty. }
  destruct (determine_severity_precedence true
              (txt "Severe flooding, moderate damage expected"))
    as (Hhigh & _).
  destruct (determine_severity_precedence true
              (txt "surge warning for the bay"))
    as (_ & Hmedium & _).
  destruct (determine_severity_precedence true (txt "slight swell"))
    as (_ & _ & Hlow & _).
  split; [|split].
  - refine (Hhigh (Hpresent _ _ _)). vm_compute. reflexivity.
  - refine (Hmedium (Habsent _ _ _) (Hpresent _ _ _));
      vm_compute; reflexivity.
  - refine (Hlow (Habsent _ _ _) (Habsent _ _ _) (Hpresent _ _ _));
      vm_compute; reflexivity.
Defined.

(** ** Hazard tags *)

Lemma detect_hazards_In (raw : text) (h : string) :
  In h (map fst (detect_hazards raw)) <-> hazard_present h raw.
Proof.
  unfold detect_hazards, hazard_present.
  induction hazard_patterns as [|[h0 ps0] table IH]; simpl.
  - split; [intros []|now intros (ps & p & [] & _)].
  - rewrite map_app, in_app_iff, IH. split.
    + intros [H|(ps & p & Hin & Hp)].
      * destruct (nonempty (matched_spans true ps0 raw)) eqn:E;
          [|destruct H].
        destruct H as [<-|[]].
        apply matched_spans_nonempty in E as (p & Hp & Ho).
        exists ps0, p. repeat split; [now left|assumption..].
      * exists ps, p. split; [now right|assumption].
    + intros (ps & p & [[= <- <-]|Hin] & Hp & Ho).
      * left. assert (E : nonempty (matched_spans true ps0 raw) = true)
          by (apply matched_spans_nonempty; now exists p).
        rewrite E. now left.
      * right. now exists ps, p.
Qed.

Lemma occurs_eval (ic : bool) (p : string) (t : text) :
  re_found ic (re p) t = true -> occurs ic p t.
Proof. apply re_found_occurs. Qed.

(** C2.  A classification tags exactly the hazard types one of whose
    patterns occurs, case-insensitively, in the raw text (every such type,
    not the first one), whatever the normalized text is; a text that
    contains "major flooding" and later "dangerous waves" is tagged with
    "flood" and with "high_waves" and has severity "high", and
    "major flooding... dangerous waves" has exactly these two tags. *)
Theorem classify_tags_every_match (ic : bool) (raw : text)
    (normalized : Preprocessed) :
  (forall h, In h (hazards (classify ic raw normalized))
             <-> hazard_present h raw)
  /\ (forall normalized',
         classify ic raw normalized' = classify ic raw normalized)
  /\ (forall pre mid post,
         let c := classify ic
                    (pre ++ txt "major flooding" ++ mid
                         ++ txt "dangerous waves" ++ post) normalized in
         In "flood"%string (hazards c)
         /\ In "high_waves"%string (hazards c)
         /\ severity c = "high"%string)
  /\ hazards (classify ic (txt "major flooding... dangerous waves")
                normalized)
     = ["flood"; "high_waves"]%string
  /\ hazards (classify ic (txt "MAJOR Flooding... Dangerous  WAVES")
                normalized)
     = ["flood"; "high_waves"]%string.
Proof.
  split; [|split; [|split; [|split]]].
  - intros h. apply detect_hazards_In.
  - reflexivity.
  - intros pre mid post c. unfold c, classify. cbn [hazards severity].
    split; [|split].
    + apply detect_hazards_In.
      exists ["flood(ing)?"; "water level(s)? rise"; "submerged";
              "inundat(e|ion)"]%string, "flood(ing)?"%string.
      split; [now left|]. split; [now left|].
      apply (occurs_within pre
               (mid ++ txt "dangerous waves" ++ post)).
      apply occurs_eval. vm_compute. reflexivity.
    + apply detect_hazards_In.
      exists ["high\s*waves?"; "large\s*waves?"; "dangerous\s*waves?";
              "rough\s*seas?"; "wave\s*height"]%string,
             "dangerous\s*waves?"%string.
      split; [simpl; tauto|]. split; [simpl; tauto|].
      rewrite (app_assoc (txt "major flooding")), (app_assoc pre).
      apply (occurs_within (pre ++ txt "major flooding" ++ mid) post).
      apply occurs_eval. vm_compute. reflexivity.
    + apply determine_severity_high.
      exists "major"%string. split; [now left|].
      apply (occurs_within pre
               (mid ++ txt "dangerous waves" ++ post)).
      apply occurs_eval. destruct ic; vm_compute; reflexivity.
  - vm_compute. reflexivity.
  - vm_compute. reflexivity.
Qed.

(** ** Severity without hazard tags *)

Lemma determine_severity_known (ic : bool) (t : text) :
  determine_severity ic t <> "unknown"%string <->
  tier_present ic "high" t \/ tier_present ic "medium" t
  \/ tier_present ic "low" t.
Proof.
  rewrite determine_severity_eq. unfold tier_present.
  rewrite <- !matched_spans_nonempty.
  destruct (nonempty (matched_spans ic _ t));
    [split; [now left|discriminate]|].
  destruct (nonempty (matched_spans ic _ t));
    [split; [right; now left|discriminate]|].
  destruct (nonempty (matched_spans ic _ t));
    [split; [right; now right|discriminate]|].
  split; [congruence|]. intros [H|[H|H]]; discriminate.
Qed.

Lemma hazards_nonempty (ic : bool) (raw : text) (normalized : Preprocessed) :
  hazards (classify ic raw normalized) <> [] <->
  exists h, hazard_present h raw.
Proof.
  split.
  - intros H. destruct (hazards (classify ic raw normalized)) as [|h l] eqn:E;
      [congruence|].
    exists h. apply detect_hazards_In.
    change (In h (hazards (classify ic raw normalized))). rewrite E.
    now left.
  - intros (h & Hh) E. apply detect_hazards_In in Hh.
    change (In h (hazards (classify ic raw normalized))) in Hh.
    now rewrite E in Hh.
Qed.

(** C6, as amended.  The hazard-tag set of a classification is non-empty
    exactly when a hazard pattern occurs in the raw text, and its severity
    differs from "unknown" exactly when a severity indicator occurs in it:
    a text with severity indicators and no hazard pattern is classified
    with that severity and no hazard tag. *)
Theorem hazards_independent_of_severity (ic : bool) (raw : text)
    (normalized : Preprocessed) :
  let c := classify ic raw normalized in
  (hazards c <> [] <-> exists h, hazard_present h raw)
  /\ (severity c <> "unknown"%string <->
      tier_present ic "high" raw \/ tier_present ic "medium" raw
      \/ tier_present ic "low" raw)
  /\ ((tier_present ic "high" raw \/ tier_present ic "medium" raw
       \/ tier_present ic "low" raw) ->
      ~ (exists h, hazard_present h raw) ->
      severity c <> "unknown"%string /\ hazards c = []).
Proof.
  intros c.
  pose proof (hazards_nonempty ic raw normalized) as Hh.
  pose proof (determine_severity_known ic raw) as Hs.
  split; [exact Hh|]. split; [exact Hs|].
  intros Ht Hn. split; [now apply Hs|].
  destruct (hazards c) as [|h l] eqn:E; [reflexivity|].
  exfalso. apply Hn, Hh. fold c. now rewrite E.
Qed.

(** C6 fails as stated: "minor update on beach conditions" has severity
    "low" and no hazard tag. *)
Lemma severity_without_hazard_tags :
  let c := classify true (txt "minor update on beach conditions")
             (preprocess_text sample_processor
                (PyStr (txt "minor update on beach conditions"))) in
  severity c = "low"%string
  /\ severity c <> "unknown"%string
  /\ hazards c = [].
Proof. vm_compute. repeat split. discriminate. Qed.

(** The amended C6 at that text. *)
Lemma hazards_independent_witness :
  let raw := txt "minor update on beach conditions" in
  let c := classify true raw (preprocess_text sample_processor (PyStr raw)) in
  severity c <> "unknown"%string /\ hazards c = [].
Proof.
  intros raw c.
  destruct (hazards_independent_of_severity true raw
              (preprocess_text sample_processor (PyStr raw)))
    as (Hh & Hs & H).
  apply H.
  - apply Hs. vm_compute. discriminate.
  - intros E. apply Hh in E. apply E. vm_compute. reflexivity.
Defined.

(** ** The prioritizer *)

Lemma code_inj (a b : ascii) : code a = code b -> a = b.
Proof.
  unfold code. intros H.
  rewrite <- (ascii_nat_embedding a), <- (ascii_nat_embedding b).
  now rewrite H.
Qed.

Lemma text_compare_eq (a b : text) : text_compare a b = Eq -> a = b.
Proof.
  revert b. induction a as [|x a IH]; intros [|y b]; simpl;
    try discriminate; [reflexivity|].
  destruct (Nat.compare_spec (code x) (code y)) as [E|E|E];
    try discriminate.
  intros H. now rewrite (code_inj _ _ E), (IH b H).
Qed.

Lemma text_compare_antisym (a b : text) :
  text_compare b a = CompOpp (text_compare a b).
Proof.
  revert b. induction a as [|x a IH]; intros [|y b]; simpl;
    try reflexivity.
  rewrite (Nat.compare_antisym (code x) (code y)).
  destruct (code x ?= code y); simpl; [apply IH|reflexivity..].
Qed.

Lemma text_compare_trans (a b c : text) :
  text_compare a b <> Gt -> text_compare b c <> Gt ->
  text_compare a c <> Gt.
Proof.
  revert b c. induction a as [|x a IH]; intros [|y b] [|z c]; simpl;
    try congruence.
  destruct (Nat.compare_spec (code x) (code y)) as [E1|E1|E1];
    destruct (Nat.compare_spec (code y) (code z)) as [E2|E2|E2];
    destruct (Nat.compare_spec (code x) (code z)) as [E3|E3|E3];
    try lia; try congruence.
  apply IH.
Qed.

Lemma ranks_before_true (a b : PrioritizedReport) :
  ranks_before a b = true -> in_order a b.
Proof.
  unfold ranks_before, rank_compare, in_order.
  destruct (Qcompare_spec (priority b) (priority a)) as [E|E|E];
    try discriminate; [|now left].
  right. split; [now symmetry|].
  destruct (Z.compare_spec (timestamp b) (timestamp a)) as [T|T|T];
    try discriminate; [|now left].
  right. split; [now symmetry|].
  now destruct (text_compare (report_id a) (report_id b)).
Qed.

Lemma ranks_before_false (a b : PrioritizedReport) :
  ranks_before a b = false -> in_order b a.
Proof.
  unfold ranks_before, rank_compare, in_order.
  destruct (Qcompare_spec (priority b) (priority a)) as [E|E|E];
    try discriminate; [|now left].
  right. split; [assumption|].
  destruct (Z.compare_spec (timestamp b) (timestamp a)) as [T|T|T];
    try discriminate; [|now left].
  right. split; [assumption|].
  rewrite (text_compare_antisym (report_id a) (report_id b)).
  now destruct (text_compare (report_id a) (report_id b)).
Qed.

Lemma in_order_trans (a b c : PrioritizedReport) :
  in_order a b -> in_order b c -> in_order a c.
Proof.
  unfold in_order.
  intros [H1|(E1 & [T1|(T1 & I1)])] [H2|(E2 & [T2|(T2 & I2)])];
    try (left; lra);
    right; (split; [lra|]);
    try (left; lia).
  right. split; [congruence|]. eapply text_compare_trans; eassumption.
Qed.

Lemma in_order_antisym (a b : PrioritizedReport) :
  in_order a b -> in_order b a -> same_key a b.
Proof.
  unfold in_order, same_key.
  intros [H1|(E1 & [T1|(T1 & I1)])] [H2|(E2 & [T2|(T2 & I2)])];
    try lra; try lia.
  repeat split; [assumption..|].
  apply text_compare_eq.
  rewrite (text_compare_antisym (report_id a) (report_id b)) in I2.
  now destruct (text_compare (report_id a) (report_id b)).
Qed.

Lemma insert_ranked_perm (x : PrioritizedReport) (l : list PrioritizedReport) :
  Permutation (x :: l) (insert_ranked x l).
Proof.
  induction l as [|y l IH]; simpl; [reflexivity|].
  destruct (ranks_before y x); [|reflexivity].
  rewrite perm_swap. now constructor.
Qed.

Lemma insert_ranked_sorted (x : PrioritizedReport)
    (l : list PrioritizedReport) :
  StronglySorted in_order l -> StronglySorted in_order (insert_ranked x l).
Proof.
  induction 1 as [|y l Hs IH Hy]; simpl.
  - repeat constructor.
  - destruct (ranks_before y x) eqn:E.
    + constructor; [assumption|].
      apply (Permutation_Forall (insert_ranked_perm x l)).
      constructor; [now apply ranks_before_true|assumption].
    + apply ranks_before_false in E.
      constructor; [now constructor|].
      constructor; [assumption|].
      eapply Forall_impl; [|exact Hy].
      intros z Hz. eapply in_order_trans; eassumption.
Qed.

Lemma prioritize_reports_perm (batch : list PrioritizedReport) :
  Permutation batch (prioritize_reports batch).
Proof.
  unfold prioritize_reports.
  induction batch as [|x l IH]; simpl; [constructor|].
  rewrite <- insert_ranked_perm. now constructor.
Qed.

Lemma prioritize_reports_sorted (batch : list PrioritizedReport) :
  StronglySorted in_order (prioritize_reports batch).
Proof.
  unfold prioritize_reports.
  induction batch as [|x l IH]; simpl; [constructor|].
  now apply insert_ranked_sorted.
Qed.

Lemma sorted_unique (l1 : list PrioritizedReport) :
  forall l2,
    distinct_keys l1 ->
    StronglySorted in_order l1 -> StronglySorted in_order l2 ->
    Permutation l1 l2 -> l1 = l2.
Proof.
  induction l1 as [|a l1 IH]; intros l2 Hd S1 S2 P.
  - now apply Permutation_nil in P.
  - destruct l2 as [|b l2];
      [apply Permutation_sym, Permutation_nil in P; discriminate|].
    assert (Hab : a = b).
    { assert (Ha : In a (b :: l2))
        by (apply (Permutation_in _ P); now left).
      assert (Hb : In b (a :: l1))
        by (apply (Permutation_in _ (Permutation_sym P)); now left).
      destruct Ha as [Ha|Ha]; [now symmetry|].
      destruct Hb as [Hb|Hb]; [assumption|].
      apply StronglySorted_inv in S1 as [_ F1].
      apply StronglySorted_inv in S2 as [_ F2].
      rewrite Forall_forall in F1, F2.
      apply Hd; [now left|apply (Permutation_in _ (Permutation_sym P)); now left|].
      apply in_order_antisym; [now apply F1|now apply F2]. }
    subst b. f_equal.
    apply StronglySorted_inv in S1 as [S1 _].
    apply StronglySorted_inv in S2 as [S2 _].
    apply IH; [|assumption..|eapply Permutation_cons_inv; eassumption].
    intros x y Hx Hy. apply Hd; now right.
Qed.

(** C3.  The prioritizer returns the reports of the batch, each as often
    as it was given, ordered by descending priority, then by most recent
    timestamp, then by ascending id; the empty batch gives the empty list;
    and when no two reports share (priority, timestamp, id) the result is
    the same for every arrangement of the batch. *)
Theorem prioritize_reports_total_order (batch : list PrioritizedReport) :
  prioritize_reports [] = []
  /\ Permutation batch (prioritize_reports batch)
  /\ StronglySorted in_order (prioritize_reports batch)
  /\ (distinct_keys batch ->
      forall batch',
        Permutation batch batch' ->
        prioritize_reports batch' = prioritize_reports batch).
Proof.
  split; [reflexivity|].
  split; [apply prioritize_reports_perm|].
  split; [apply prioritize_reports_sorted|].
  intros Hd batch' P. symmetry. apply sorted_unique.
  - intros a b Ha Hb. apply Hd; eapply Permutation_in;
      try eassumption; apply Permutation_sym, prioritize_reports_perm.
  - apply prioritize_reports_sorted.
  - apply prioritize_reports_sorted.
  - rewrite <- (prioritize_reports_perm batch),
      <- (prioritize_reports_perm batch'). assumption.
Qed.

Lemma sample_batch_distinct : distinct_keys sample_batch.
Proof.
  intros a b Ha Hb (_ & _ & Hid).
  simpl in Ha, Hb.
  repeat (destruct Ha as [<-|Ha]; [|]); try destruct Ha;
    repeat (destruct Hb as [<-|Hb]; [|]); try destruct Hb;
    try reflexivity; discriminate Hid.
Qed.

(** C3 at a batch of four reports, three of them of equal priority and
    two of these of equal timestamp, and at the batch reversed. *)
Lemma prioritize_reports_witness :
  map report_id (prioritize_reports sample_batch)
  = [txt "r1"; txt "r4"; txt "r2"; txt "r3"]
  /\ prioritize_reports (rev sample_batch) = prioritize_reports sample_batch.
Proof.
  split; [vm_compute; reflexivity|].
  destruct (prioritize_reports_total_order sample_batch) as (_ & _ & _ & H).
  apply H; [exact sample_batch_distinct|apply Permutation_rev].
Defined.

(** ** Keyword extraction *)

Lemma text_eqb_spec (a b : text) : reflect (a = b) (text_eqb a b).
Proof.
  destruct (text_eqb a b) eqn:E; constructor.
  - now apply text_eqb_eq.
  - intros H. apply text_eqb_eq in H. congruence.
Qed.

Lemma first_index_app_in (w : text) (l l' : list text) :
  In w l -> first_index w (l ++ l') = first_index w l.
Proof.
  induction l as [|t l IH]; simpl; [intros []|].
  destruct (text_eqb_spec w t) as [->|Hn]; [reflexivity|].
  intros [H|H]; [congruence|]. now rewrite IH.
Qed.

Lemma first_index_app_new (w : text) (l l' : list text) :
  ~ In w l -> first_index w (l ++ w :: l') = length l.
Proof.
  induction l as [|t l IH]; simpl; intros H.
  - now destruct (text_eqb_spec w w).
  - destruct (text_eqb_spec w t) as [->|Hn]; [tauto|].
    rewrite IH; tauto.
Qed.

Lemma first_index_lt (w : text) (l : list text) :
  In w l -> first_index w l < length l.
Proof.
  induction l as [|t l IH]; simpl; [intros []|].
  destruct (text_eqb_spec w t) as [->|Hn]; [lia|].
  intros [H|H]; [congruence|]. apply IH in H. lia.
Qed.

Lemma dict_get_In (d : freq_dict) (k : text) :
  In k (map fst d) -> In (k, dict_get d k) d.
Proof.
  induction d as [|[k' v] d IH]; simpl; [intros []|].
  destruct (text_eqb_spec k k') as [->|Hn]; [now left|].
  intros [H|H]; [congruence|]. right. now apply IH.
Qed.

Lemma dict_get_absent (d : freq_dict) (k : text) :
  ~ In k (map fst d) -> dict_get d k = 0.
Proof.
  induction d as [|[k' v] d IH]; simpl; [reflexivity|].
  destruct (text_eqb_spec k k') as [->|Hn]; [tauto|].
  intros H. apply IH. tauto.
Qed.

Lemma dict_set_absent (d : freq_dict) (k : text) (v : nat) :
  ~ In k (map fst d) -> dict_set d k v = d ++ [(k, v)].
Proof.
  induction d as [|[k' v'] d IH]; simpl; [reflexivity|].
  destruct (text_eqb_spec k k') as [->|Hn]; [tauto|].
  intros H. rewrite IH; tauto.
Qed.

Lemma dict_set_keys (d : freq_dict) (k : text) (v : nat) :
  In k (map fst d) -> map fst (dict_set d k v) = map fst d.
Proof.
  induction d as [|[k' v'] d IH]; simpl; [intros []|].
  destruct (text_eqb_spec k k') as [->|Hn]; [reflexivity|].
  intros [H|H]; [congruence|]. simpl. now rewrite IH.
Qed.

Lemma dict_set_In (d : freq_dict) (k : text) (v : nat) (w : text) (c : nat) :
  NoDup (map fst d) ->
  In (w, c) (dict_set d k v) ->
  w = k /\ c = v \/ w <> k /\ In (w, c) d.
Proof.
  induction d as [|[k' v'] d IH]; simpl; intros Hd H.
  - destruct H as [[= <- <-]|[]]. now left.
  - apply NoDup_cons_iff in Hd as [Hk Hd].
    destruct (text_eqb_spec k k') as [->|Hn].
    + destruct H as [[= <- <-]|H]; [now left|].
      right. split; [|now right].
      intros ->. apply Hk. now apply (in_map fst) in H.
    + destruct H as [[= <- <-]|H].
      * right. split; [congruence|now left].
      * destruct (IH Hd H) as [?|[? ?]]; [now left|right; split; auto].
Qed.

Lemma StronglySorted_NoDup (A : Type) (R : A -> A -> Prop) (l : list A) :
  (forall a, ~ R a a) -> StronglySorted R l -> NoDup l.
Proof.
  intros Hirr. induction 1 as [|a l _ IH Ha]; constructor; [|assumption].
  intros Hin. rewrite Forall_forall in Ha. now apply (Hirr a), Ha.
Qed.

Lemma StronglySorted_snoc (A : Type) (R : A -> A -> Prop) (l : list A)
    (x : A) :
  StronglySorted R l -> Forall (fun y => R y x) l ->
  StronglySorted R (l ++ [x]).
Proof.
  induction 1 as [|a l _ IH Ha]; simpl; intros Hx.
  - repeat constructor.
  - apply Forall_cons_iff in Hx as [Hax Hx].
    constructor; [now apply IH|].
    apply Forall_app. split; [assumption|now repeat constructor].
Qed.

Lemma StronglySorted_impl (A : Type) (R R' : A -> A -> Prop) (l : list A) :
  (forall a b, In a l -> In b l -> R a b -> R' a b) ->
  StronglySorted R l -> StronglySorted R' l.
Proof.
  intros Himp Hs. induction Hs as [|a l _ IH Ha].
  - constructor.
  - constructor.
    + apply IH. intros x y Hx Hy. apply Himp; now right.
    + rewrite Forall_forall in *. intros y Hy.
      apply Himp; [now left|now right|now apply Ha].
Qed.

Lemma StronglySorted_app_inv (A : Type) (R : A -> A -> Prop)
    (l1 l2 : list A) :
  StronglySorted R (l1 ++ l2) ->
  StronglySorted R l1
  /\ forall a b, In a l1 -> In b l2 -> R a b.
Proof.
  induction l1 as [|x l1 IH]; simpl; intros H.
  - split; [constructor|intros a b []].
  - apply StronglySorted_inv in H as [Hs Hx].
    destruct (IH Hs) as [H1 H2].
    apply Forall_app in Hx as [Hx1 Hx2].
    split; [now constructor|].
    intros a b [<-|Ha] Hb; [|now apply H2].
    rewrite Forall_forall in Hx2. now apply Hx2.
Qed.

Lemma counts_of_keys_NoDup (seen : list text) (d : freq_dict) :
  counts_of seen d -> NoDup (map fst d).
Proof.
  intros [Hs _ _]. eapply StronglySorted_NoDup; [|exact Hs].
  intros a. simpl. lia.
Qed.

Lemma counts_of_get (seen : list text) (d : freq_dict) (w : text) :
  counts_of seen d -> dict_get d w = count_occ text_eq_dec seen w.
Proof.
  intros [Hs Hk Hv].
  destruct (in_dec text_eq_dec w (map fst d)) as [Hin|Hin].
  - apply Hv. now apply dict_get_In.
  - rewrite dict_get_absent by assumption.
    symmetry. apply count_occ_not_In. now rewrite <- Hk.
Qed.

Lemma counts_of_nil : counts_of [] [].
Proof.
  split; simpl; [constructor|tauto|intros w c []].
Qed.

Lemma count_occ_snoc (seen : list text) (t w : text) :
  count_occ text_eq_dec (seen ++ [t]) w
  = count_occ text_eq_dec seen w + (if text_eq_dec t w then 1 else 0).
Proof.
  rewrite count_occ_app. simpl. now destruct (text_eq_dec t w).
Qed.

Lemma counts_of_step (seen : list text) (d : freq_dict) (t : text) :
  counts_of seen d ->
  counts_of (seen ++ [t]) (dict_set d t (dict_get d t + 1)).
Proof.
  intros H. pose proof (counts_of_get t H) as Hget.
  pose proof (counts_of_keys_NoDup H) as Hnd.
  destruct H as [Hs Hk Hv].
  destruct (in_dec text_eq_dec t (map fst d)) as [Hin|Hin].
  - split.
    + rewrite dict_set_keys by assumption.
      eapply StronglySorted_impl; [|exact Hs].
      intros a b Ha Hb. cbv beta.
      rewrite !first_index_app_in by now apply Hk. trivial.
    + intros w. rewrite dict_set_keys by assumption.
      rewrite Hk, in_app_iff. simpl. split; [tauto|].
      intros [Hw|[<-|[]]]; [assumption|now apply Hk].
    + intros w c Hc. rewrite count_occ_snoc.
      apply dict_set_In in Hc as [[-> ->]|[Hn Hc]]; [| |assumption].
      * rewrite Hget. now destruct (text_eq_dec t t).
      * rewrite (Hv w c Hc). destruct (text_eq_dec t w); [congruence|lia].
  - rewrite dict_set_absent by assumption.
    assert (Hns : ~ In t seen) by now rewrite <- Hk.
    split.
    + rewrite map_app. simpl. apply StronglySorted_snoc.
      * eapply StronglySorted_impl; [|exact Hs].
        intros a b Ha Hb. cbv beta.
        rewrite !first_index_app_in by now apply Hk. trivial.
      * apply Forall_forall. intros y Hy. apply Hk in Hy.
        rewrite first_index_app_in by assumption.
        rewrite first_index_app_new by assumption.
        now apply first_index_lt.
    + intros w. rewrite map_app, !in_app_iff, Hk. simpl. tauto.
    + intros w c Hc. rewrite count_occ_snoc.
      apply in_app_or in Hc as [Hc|[[= <- <-]|[]]].
      * rewrite (Hv w c Hc). destruct (text_eq_dec t w) as [<-|]; [|lia].
        exfalso. apply Hin. now apply (in_map fst) in Hc.
      * rewrite Hget. apply (count_occ_not_In text_eq_dec) in Hns.
        rewrite Hns. now destruct (text_eq_dec t t).
Qed.

Lemma counts_of_fold (toks : list text) :
  forall seen d,
    counts_of seen d ->
    counts_of (seen ++ filter (fun token => 2 <? length token) toks)
      (fold_left count_token toks d).
Proof.
  induction toks as [|t toks IH]; intros seen d H; simpl.
  - now rewrite app_nil_r.
  - unfold count_token at 2. destruct (2 <? length t).
    + pose proof (IH (seen ++ [t]) _ (counts_of_step t H)) as H'.
      rewrite <- app_assoc in H'. exact H'.
    + now apply IH.
Qed.

Lemma word_frequencies_counts (toks : list text) :
  counts_of (filter (fun token => 2 <? length token) toks)
    (word_frequencies toks).
Proof. apply (counts_of_fold toks counts_of_nil). Qed.

Lemma insert_by_freq_perm (x : text * nat) (l : freq_dict) :
  Permutation (x :: l) (insert_by_freq x l).
Proof.
  induction l as [|y l IH]; simpl; [reflexivity|].
  destruct (snd x <? snd y); [|reflexivity].
  rewrite perm_swap. now constructor.
Qed.

Lemma insert_by_freq_sorted (kw : list text) (x : text * nat)
    (l : freq_dict) :
  StronglySorted (outranks kw) l ->
  Forall (fun z => first_index (fst x) kw < first_index (fst z) kw) l ->
  StronglySorted (outranks kw) (insert_by_freq x l).
Proof.
  induction 1 as [|y l Hs IH Hy]; simpl; intros Hx.
  - repeat constructor.
  - apply Forall_cons_iff in Hx as [Hxy Hx].
    destruct (Nat.ltb_spec (snd x) (snd y)) as [E|E].
    + constructor; [now apply IH|].
      apply (Permutation_Forall (insert_by_freq_perm x l)).
      constructor; [now left|assumption].
    + constructor; [now constructor|].
      constructor.
      * unfold outranks. lia.
      * rewrite Forall_forall in *. intros z Hz.
        specialize (Hy z Hz). specialize (Hx z Hz).
        unfold outranks in *. lia.
Qed.

Lemma sorted_by_freq_perm (d : freq_dict) : Permutation d (sorted_by_freq d).
Proof.
  unfold sorted_by_freq.
  induction d as [|x d IH]; simpl; [constructor|].
  rewrite <- insert_by_freq_perm. now constructor.
Qed.

Lemma sorted_by_freq_sorted (kw : list text) (d : freq_dict) :
  StronglySorted (fun a b => first_index a kw < first_index b kw)
    (map fst d) ->
  StronglySorted (outranks kw) (sorted_by_freq d).
Proof.
  induction d as [|x d IH]; simpl; intros H; [constructor|].
  apply StronglySorted_inv in H as [Hs Hx].
  apply insert_by_freq_sorted; [now apply IH|].
  rewrite Forall_forall in *. intros z Hz.
  apply Hx, in_map.
  apply (Permutation_in _ (Permutation_sym (sorted_by_freq_perm d))).
  exact Hz.
Qed.

Lemma slice_to_firstn (A : Type) (n : Z) (l : list A) :
  (0 <= n)%Z -> slice_to n l = firstn (Z.to_nat n) l.
Proof.
  unfold slice_to. intros H.
  now destruct (Z.leb_spec 0 n); [|lia].
Qed.

Lemma extract_keywords_eq (self : NLPProcessor) (x : pyobj) (top_n : Z) :
  (0 <= top_n)%Z ->
  extract_keywords self x top_n
  = firstn (Z.to_nat top_n)
      (sorted_by_freq
         (word_frequencies (lemmatized_tokens (preprocess_text self x)))).
Proof.
  intros H. destruct x as [[|c s]|b]; unfold extract_keywords.
  - rewrite preprocess_text_empty.
    cbn [lemmatized_tokens]. now rewrite firstn_nil.
  - now apply slice_to_firstn.
  - rewrite preprocess_text_other.
    cbn [lemmatized_tokens]. now rewrite firstn_nil.
Qed.

Lemma extract_keywords_counted (self : NLPProcessor) (x : pyobj) (top_n : Z)
    (Hn : (0 <= top_n)%Z) :
  let kw := counted self x in
  let out := extract_keywords self x top_n in
  (Z.of_nat (length out) <= top_n)%Z
  /\ (forall w c, In (w, c) out ->
                  In w kw /\ 2 < length w
                  /\ c = count_occ text_eq_dec kw w)
  /\ StronglySorted (outranks kw) out
  /\ (forall w, In w kw -> ~ In w (map fst out) ->
                Z.of_nat (length out) = top_n
                /\ Forall (fun e =>
                             outranks kw e (w, count_occ text_eq_dec kw w))
                     out).
Proof.
  intros kw out. unfold out. rewrite extract_keywords_eq by assumption.
  set (toks := lemmatized_tokens (preprocess_text self x)).
  set (d := word_frequencies toks).
  set (n := Z.to_nat top_n).
  assert (Hc : counts_of kw d) by apply word_frequencies_counts.
  destruct Hc as [Hs Hk Hv].
  pose proof (sorted_by_freq_perm d) as Hp.
  pose proof (sorted_by_freq_sorted kw d Hs) as Hsorted.
  rewrite <- (firstn_skipn n (sorted_by_freq d)) in Hsorted.
  apply StronglySorted_app_inv in Hsorted as [Hfirst Hrest].
  split; [|split; [|split]].
  - pose proof (firstn_le_length n (sorted_by_freq d)).
    assert (length (firstn n (sorted_by_freq d)) <= n)
      by (rewrite length_firstn; lia).
    unfold n in *. lia.
  - intros w c Hin. apply In_firstn in Hin.
    apply (Permutation_in _ (Permutation_sym Hp)) in Hin.
    assert (Hw : In w kw) by (apply Hk; now apply (in_map fst) in Hin).
    split; [assumption|]. split; [|now apply Hv].
    unfold kw, counted in Hw. apply filter_In in Hw as [_ Hw].
    now apply Nat.ltb_lt in Hw.
  - exact Hfirst.
  - intros w Hw Hout.
    apply Hk, in_map_iff in Hw as ([w' c] & Hfst & Hin).
    simpl in Hfst. subst w'.
    rewrite <- (Hv w c Hin).
    apply (Permutation_in _ Hp) in Hin.
    rewrite <- (firstn_skipn n (sorted_by_freq d)) in Hin.
    apply in_app_or in Hin as [Hin|Hin];
      [exfalso; apply Hout; now apply (in_map fst) in Hin|].
    split.
    + destruct (Nat.le_gt_cases n (length (sorted_by_freq d))) as [Hle|Hgt].
      * rewrite firstn_length_le by assumption. unfold n. lia.
      * rewrite skipn_all2 in Hin by lia. destruct Hin.
    + apply Forall_forall. intros e He. now apply Hrest.
Qed.

Lemma count_occ_filter (f : text -> bool) (l : list text) (w : text) :
  f w = true ->
  count_occ text_eq_dec (filter f l) w = count_occ text_eq_dec l w.
Proof.
  intros Hw. induction l as [|t l IH]; simpl; [reflexivity|].
  destruct (f t) eqn:Ht; simpl.
  - destruct (text_eq_dec t w); now rewrite IH.
  - destruct (text_eq_dec t w) as [->|]; [congruence|assumption].
Qed.

Lemma first_index_filter (f : text -> bool) (l : list text) (a b : text) :
  f a = true -> f b = true ->
  (first_index a (filter f l) < first_index b (filter f l)
   <-> first_index a l < first_index b l).
Proof.
  intros Ha Hb. induction l as [|t l IH]; simpl; [reflexivity|].
  destruct (f t) eqn:Ht; simpl.
  - destruct (text_eqb a t), (text_eqb b t); lia.
  - destruct (text_eqb_spec a t) as [->|_]; [congruence|].
    destruct (text_eqb_spec b t) as [->|_]; [congruence|]. lia.
Qed.

Lemma outranks_filter (f : text -> bool) (l : list text)
    (a b : text * nat) :
  f (fst a) = true -> f (fst b) = true ->
  (outranks (filter f l) a b <-> outranks l a b).
Proof.
  intros Ha Hb. unfold outranks.
  now rewrite (@first_index_filter f l (fst a) (fst b) Ha Hb).
Qed.

(** C7.  For a count [top_n] that is not negative, [extract_keywords]
    returns at most [top_n] pairs; each pairs a lemmatized token of more
    than two characters with the number of its occurrences; the pairs are
    in order of descending count, equal counts in order of first
    occurrence; and such a token is left out only when [top_n] pairs were
    returned, all of which stand before it in that order. *)
Theorem extract_keywords_top (self : NLPProcessor) (x : pyobj) (top_n : Z)
    (Hn : (0 <= top_n)%Z) :
  let lemmas := lemmatized_tokens (preprocess_text self x) in
  let out := extract_keywords self x top_n in
  (Z.of_nat (length out) <= top_n)%Z
  /\ (forall w c, In (w, c) out ->
                  In w lemmas /\ 2 < length w
                  /\ c = count_occ text_eq_dec lemmas w)
  /\ StronglySorted (outranks lemmas) out
  /\ (forall w, In w lemmas -> 2 < length w -> ~ In w (map fst out) ->
                Z.of_nat (length out) = top_n
                /\ Forall (fun e =>
                             outranks lemmas e
                               (w, count_occ text_eq_dec lemmas w))
                     out).
Proof.
  intros lemmas out.
  destruct (extract_keywords_counted self x Hn) as (Hlen & Hin & Hs & Hout).
  fold out in Hlen, Hin, Hs, Hout. unfold counted in Hin, Hs, Hout.
  fold lemmas in Hin, Hs, Hout.
  set (long := fun token : text => 2 <? length token) in Hin, Hs, Hout.
  assert (Hlong : forall e, In e out -> long (fst e) = true).
  { intros [w c] He. destruct (Hin w c He) as (_ & Hw & _).
    now apply Nat.ltb_lt. }
  split; [exact Hlen|]. split; [|split].
  - intros w c He. destruct (Hin w c He) as (Hw & Hl & ->).
    apply filter_In in Hw as [Hw Hf].
    repeat split; [assumption..|]. now apply count_occ_filter.
  - eapply StronglySorted_impl; [|exact Hs].
    intros a b Ha Hb. apply outranks_filter; now apply Hlong.
  - intros w Hw Hl Hnot.
    assert (Hf : long w = true) by now apply Nat.ltb_lt.
    destruct (Hout w) as [E F]; [now apply filter_In|assumption|].
    split; [exact E|].
    rewrite Forall_forall in *. intros e He.
    rewrite <- (@count_occ_filter long lemmas w Hf).
    apply (@outranks_filter long lemmas); [now apply Hlong|exact Hf|].
    now apply F.
Qed.

(** C7 at a report and the sample processor, for the three most frequent
    keywords. *)
Lemma extract_keywords_witness :
  let x := PyStr (txt "High waves and WAVES near the pier; waves are high!") in
  extract_keywords sample_processor x 3
  = [(txt "wave", 3); (txt "high", 2); (txt "and", 1)]
  /\ (Z.of_nat (length (extract_keywords sample_processor x 3)) <= 3)%Z.
Proof.
  intros x.
  assert (Hn : (0 <= 3)%Z) by discriminate.
  destruct (extract_keywords_top sample_processor x Hn) as (Hlen & _).
  split; [vm_compute; reflexivity|exact Hlen].
Defined.

(** A negative count is a Python slice from the end: all keywords but the
    last. *)
Example extract_keywords_negative :
  extract_keywords sample_processor
    (PyStr (txt "High waves and WAVES near the pier; waves are high!")) (-1)
  = [(txt "wave", 3); (txt "high", 2); (txt "and", 1)].
Proof. vm_compute. reflexivity. Qed.

(** Two hundred and one refreshes with mock data: 1005 entries appended,
    the five oldest dropped. *)
Example history_after_mock_runs :
  let runs := map (fun k => NoComponents (Z.of_nat k)) (seq 0 201) in
  let history := hazard_history (refresh_all new_dashboard runs) in
  length history = 1000
  /\ hd_error history
     = nth_error (map Mocked (mock_data 1 ++ mock_data 2)) 0.
Proof. vm_compute. split; reflexivity. Qed.

Example clean_text_example :
  show (clean_text (PyStr (txt
    "There's MAJOR flooding near #Pier9 in Coastal City!  See https://t.co/x1 @user_1 now")))
  = "theres major flooding near pier in coastal city see now"%string.
Proof. vm_compute. reflexivity. Qed.

(** * Further properties of the code *)

(** ** Stopwords and lemmas *)

Lemma remove_stopwords_filter (self : NLPProcessor) (toks : list text) :
  remove_stopwords self toks
  = filter (fun token => negb (is_stopword self token)) toks.
Proof. now destruct toks. Qed.

(** X1.  [remove_stopwords] deletes exactly the occurrences of stopwords:
    a stopword no longer occurs, any other token occurs as often as
    before, the tokens of a concatenation are filtered piece by piece (so
    the kept tokens stay in order), and filtering twice is filtering
    once. *)
Theorem remove_stopwords_exact (self : NLPProcessor) (toks : list text) :
  (forall t,
      count_occ text_eq_dec (remove_stopwords self toks) t
      = if is_stopword self t then 0 else count_occ text_eq_dec toks t)
  /\ (forall more,
         remove_stopwords self (toks ++ more)
         = remove_stopwords self toks ++ remove_stopwords self more)
  /\ remove_stopwords self (remove_stopwords self toks)
     = remove_stopwords self toks.
Proof.
  rewrite !remove_stopwords_filter. split; [|split].
  - intros t. induction toks as [|a toks IH]; simpl.
    + now destruct (is_stopword self t).
    + destruct (is_stopword self a) eqn:Ea; simpl.
      * destruct (text_eq_dec a t) as [<-|]; [now rewrite Ea in *|exact IH].
      * destruct (text_eq_dec a t) as [<-|]; [|exact IH].
        rewrite IH, Ea. reflexivity.
  - intros more. rewrite !remove_stopwords_filter. apply filter_app.
  - induction toks as [|a toks IH]; simpl; [reflexivity|].
    destruct (is_stopword self a) eqn:Ea; simpl; [exact IH|].
    rewrite Ea. simpl. now rewrite IH.
Qed.

Lemma try_map_Forall2 (A B : Type) (f : A -> option B) :
  forall l l', try_map f l = Some l' ->
               Forall2 (fun a b => f a = Some b) l l'.
Proof.
  induction l as [|a l IH]; simpl; intros l' H.
  - injection H as <-. constructor.
  - destruct (f a) as [b|] eqn:E; [|discriminate].
    destruct (try_map f l) as [m|]; [|discriminate].
    injection H as <-. constructor; [assumption|now apply IH].
Qed.

Lemma lemmatize_tokens_length (self : NLPProcessor) (toks : list text) :
  length (lemmatize_tokens self toks) = length toks.
Proof.
  unfold lemmatize_tokens.
  destruct toks as [|t toks]; [reflexivity|].
  destruct (lemmatizer self) as [lemmatize|]; [|reflexivity].
  destruct (try_map lemmatize (t :: toks)) as [l|] eqn:E; [|reflexivity].
  now apply try_map_length in E.
Qed.

(** X2.  [lemmatize_tokens] is all or nothing and never changes the
    number of tokens: it returns either its argument, or the lemma of
    every token, in order, from the lemmatizer that was loaded. *)
Theorem lemmatize_tokens_all_or_nothing (self : NLPProcessor)
    (toks : list text) :
  length (lemmatize_tokens self toks) = length toks
  /\ (lemmatize_tokens self toks = toks
      \/ exists lemmatize,
           lemmatizer self = Some lemmatize
           /\ Forall2 (fun t l => lemmatize t = Some l) toks
                (lemmatize_tokens self toks)).
Proof.
  split; [apply lemmatize_tokens_length|].
  unfold lemmatize_tokens.
  destruct toks as [|t toks]; [now left|].
  destruct (lemmatizer self) as [lemmatize|]; [|now left].
  destruct (try_map lemmatize (t :: toks)) as [l|] eqn:E; [|now left].
  right. exists lemmatize. split; [reflexivity|now apply try_map_Forall2].
Qed.

(** X3.  In the result of [preprocess_text] there is one lemma for each
    token left after stopword removal, these are tokens of the token list
    that are not stopwords, and they are no more than the tokens. *)
Theorem preprocess_text_pipeline (self : NLPProcessor) (x : pyobj) :
  let r := preprocess_text self x in
  length (lemmatized_tokens r) = length (tokens_no_stopwords r)
  /\ length (tokens_no_stopwords r) <= length (tokens r)
  /\ (forall t, In t (tokens_no_stopwords r) <->
                In t (tokens r) /\ is_stopword self t = false)
  /\ cleaned_text r = clean_text x.
Proof.
  unfold preprocess_text. cbn [lemmatized_tokens tokens_no_stopwords tokens
                                cleaned_text].
  split; [|split; [|split]].
  - apply lemmatize_tokens_length.
  - rewrite remove_stopwords_filter. apply filter_length.
  - intros t. rewrite remove_stopwords_filter, filter_In.
    now destruct (is_stopword self t).
  - reflexivity.
Qed.

(** ** Keywords *)

Lemma slice_to_nil (A : Type) (n : Z) : slice_to n (@nil A) = [].
Proof. unfold slice_to. destruct (0 <=? n)%Z; apply firstn_nil. Qed.

Lemma extract_keywords_slice (self : NLPProcessor) (x : pyobj) (top_n : Z) :
  extract_keywords self x top_n
  = slice_to top_n
      (sorted_by_freq
         (word_frequencies (lemmatized_tokens (preprocess_text self x)))).
Proof.
  destruct x as [[|c s]|b]; unfold extract_keywords.
  - rewrite preprocess_text_empty. cbn [lemmatized_tokens].
    now rewrite slice_to_nil.
  - reflexivity.
  - rewrite preprocess_text_other. cbn [lemmatized_tokens].
    now rewrite slice_to_nil.
Qed.

Lemma slice_to_prefix (A : Type) (n : Z) (l : list A) :
  exists k, slice_to n l = firstn k l.
Proof.
  unfold slice_to. destruct (0 <=? n)%Z; eexists; reflexivity.
Qed.

Lemma NoDup_firstn (A : Type) (k : nat) (l : list A) :
  NoDup l -> NoDup (firstn k l).
Proof.
  intros H. rewrite <- (firstn_skipn k l) in H.
  eapply NoDup_app_remove_r; eassumption.
Qed.

Lemma sorted_frequencies_keys (toks : list text) :
  NoDup (map fst (sorted_by_freq (word_frequencies toks))).
Proof.
  apply (Permutation_NoDup
           (Permutation_map fst (sorted_by_freq_perm (word_frequencies toks)))).
  eapply counts_of_keys_NoDup. apply word_frequencies_counts.
Qed.

(** X4.  For every [top_n], negative ones too, the keywords returned by
    [extract_keywords] are pairwise different and each one has a
    frequency of at least one. *)
Theorem extract_keywords_distinct (self : NLPProcessor) (x : pyobj)
    (top_n : Z) :
  NoDup (map fst (extract_keywords self x top_n))
  /\ forall w c, In (w, c) (extract_keywords self x top_n) -> 1 <= c.
Proof.
  rewrite extract_keywords_slice.
  set (toks := lemmatized_tokens (preprocess_text self x)).
  destruct (slice_to_prefix top_n (sorted_by_freq (word_frequencies toks)))
    as [k ->].
  split.
  - rewrite <- firstn_map. apply NoDup_firstn, sorted_frequencies_keys.
  - intros w c Hin. apply In_firstn in Hin.
    apply (Permutation_in _
             (Permutation_sym (sorted_by_freq_perm (word_frequencies toks))))
      in Hin.
    destruct (word_frequencies_counts toks) as [_ Hk Hv].
    rewrite (Hv w c Hin).
    apply (count_occ_In text_eq_dec), Hk.
    now apply (in_map fst) in Hin.
Qed.

Lemma total_frequency_app (a b : freq_dict) :
  total_frequency (a ++ b) = total_frequency a + total_frequency b.
Proof.
  unfold total_frequency. induction a as [|e a IH]; simpl; [reflexivity|].
  rewrite IH. lia.
Qed.

Lemma total_frequency_perm (a b : freq_dict) :
  Permutation a b -> total_frequency a = total_frequency b.
Proof.
  unfold total_frequency.
  induction 1 as [|e a b _ IH|e f a|a b c _ IH1 _ IH2]; simpl; lia.
Qed.

Lemma total_frequency_firstn (k : nat) (d : freq_dict) :
  total_frequency (firstn k d) <= total_frequency d.
Proof.
  rewrite <- (firstn_skipn k d) at 2. rewrite total_frequency_app. lia.
Qed.

Lemma dict_increment_total (d : freq_dict) (t : text) :
  total_frequency (dict_set d t (dict_get d t + 1)) = S (total_frequency d).
Proof.
  unfold total_frequency.
  induction d as [|[k v] d IH]; simpl; [reflexivity|].
  destruct (text_eqb t k); simpl; [lia|]. rewrite IH. lia.
Qed.

Lemma count_tokens_total (toks : list text) :
  forall d,
    total_frequency (fold_left count_token toks d)
    = total_frequency d
      + length (filter (fun token => 2 <? length token) toks).
Proof.
  induction toks as [|t toks IH]; intros d; simpl; [lia|].
  rewrite IH. unfold count_token.
  destruct (2 <? length t); simpl; [|lia].
  rewrite dict_increment_total. lia.
Qed.

Lemma word_frequencies_total (toks : list text) :
  total_frequency (word_frequencies toks)
  = length (filter (fun token => 2 <? length token) toks).
Proof. unfold word_frequencies. now rewrite count_tokens_total. Qed.

(** X5.  For every [top_n], the frequencies returned by
    [extract_keywords] sum to no more than the number of lemmatized tokens
    of more than two characters. *)
Theorem extract_keywords_total_bound (self : NLPProcessor) (x : pyobj)
    (top_n : Z) :
  total_frequency (extract_keywords self x top_n)
  <= length (counted self x).
Proof.
  rewrite extract_keywords_slice. unfold counted.
  set (toks := lemmatized_tokens (preprocess_text self x)).
  destruct (slice_to_prefix top_n (sorted_by_freq (word_frequencies toks)))
    as [k ->].
  rewrite <- word_frequencies_total,
    (total_frequency_perm (sorted_by_freq_perm (word_frequencies toks))).
  apply total_frequency_firstn.
Qed.

Lemma word_frequencies_length (toks : list text) :
  length (word_frequencies toks)
  = length (nodup text_eq_dec
              (filter (fun token => 2 <? length token) toks)).
Proof.
  destruct (word_frequencies_counts toks) as [Hs Hk _].
  rewrite <- (length_map fst). apply Permutation_length.
  apply NoDup_Permutation.
  - eapply StronglySorted_NoDup; [|exact Hs]. intros a. simpl. lia.
  - apply NoDup_nodup.
  - intros w. now rewrite Hk, nodup_In.
Qed.

(** X6.  When [top_n] is at least the number of different lemmatized
    tokens of more than two characters, [extract_keywords] returns every
    one of them, and the frequencies sum to the number of such tokens. *)
Theorem extract_keywords_uncut (self : NLPProcessor) (x : pyobj) (top_n : Z)
    (Hn : (Z.of_nat (length (nodup text_eq_dec (counted self x)))
           <= top_n)%Z) :
  (forall w, In w (counted self x) ->
             In w (map fst (extract_keywords self x top_n)))
  /\ total_frequency (extract_keywords self x top_n)
     = length (counted self x).
Proof.
  rewrite extract_keywords_slice. unfold counted in *.
  set (toks := lemmatized_tokens (preprocess_text self x)) in *.
  pose proof (sorted_by_freq_perm (word_frequencies toks)) as Hp.
  rewrite slice_to_firstn by lia.
  rewrite firstn_all2.
  2:{ rewrite <- (Permutation_length Hp), word_frequencies_length. lia. }
  split.
  - intros w Hw.
    apply (Permutation_in _ (Permutation_map fst Hp)).
    destruct (word_frequencies_counts toks) as [_ Hk _]. now apply Hk.
  - now rewrite <- (total_frequency_perm Hp), word_frequencies_total.
Qed.

(** X6 at a report with four different keywords. *)
Lemma extract_keywords_uncut_witness :
  let x := PyStr (txt "Rough seas, rough waves; seas rising") in
  total_frequency (extract_keywords sample_processor x 5) = 6.
Proof.
  intros x.
  assert (Hn : (Z.of_nat (length (nodup text_eq_dec
                                   (counted sample_processor x))) <= 5)%Z)
    by (vm_compute; discriminate).
  destruct (extract_keywords_uncut sample_processor x Hn) as [_ H].
  rewrite H. vm_compute. reflexivity.
Defined.

(** X7.  Asking for more keywords never changes the ones already
    returned: for [0 <= m <= n] the result for [m] is the first [m] pairs
    of the result for [n]. *)
Theorem extract_keywords_prefix (self : NLPProcessor) (x : pyobj) (m n : Z)
    (Hm : (0 <= m)%Z) (Hmn : (m <= n)%Z) :
  extract_keywords self x m
  = firstn (Z.to_nat m) (extract_keywords self x n).
Proof.
  rewrite !extract_keywords_slice, !slice_to_firstn by lia.
  rewrite firstn_firstn. f_equal. lia.
Qed.

(** X7 at a report, for two and four keywords. *)
Lemma extract_keywords_prefix_witness :
  let x := PyStr (txt "Rough seas, rough waves; seas rising") in
  extract_keywords sample_processor x 2
  = firstn 2 (extract_keywords sample_processor x 4).
Proof.
  intros x.
  assert (Hm : (0 <= 2)%Z) by discriminate.
  assert (Hmn : (2 <= 4)%Z) by discriminate.
  exact (extract_keywords_prefix sample_processor x Hm Hmn).
Defined.

Lemma all_keywords_eq (self : NLPProcessor) (x : pyobj) :
  all_keywords self x
  = sorted_by_freq
      (word_frequencies (lemmatized_tokens (preprocess_text self x))).
Proof.
  unfold all_keywords. rewrite extract_keywords_slice.
  set (toks := lemmatized_tokens (preprocess_text self x)).
  rewrite slice_to_firstn by lia. apply firstn_all2.
  rewrite <- (Permutation_length (sorted_by_freq_perm (word_frequencies toks))).
  rewrite word_frequencies_length.
  pose proof (NoDup_incl_length
                (NoDup_nodup text_eq_dec
                   (filter (fun token => 2 <? length token) toks))
                (l' := filter (fun token => 2 <? length token) toks)) as H.
  pose proof (filter_length (fun token => 2 <? length token) toks).
  assert (length (nodup text_eq_dec
                    (filter (fun token => 2 <? length token) toks))
          <= length (filter (fun token => 2 <? length token) toks)).
  { apply H. intros w Hw. now apply nodup_In in Hw. }
  rewrite Nat2Z.id. eapply Nat.le_trans; eassumption.
Qed.

(** X8.  A negative [top_n] is a slice from the end: [extract_keywords]
    then returns all keywords of the text but the last [- top_n], the
    least frequent ones. *)
Theorem extract_keywords_negative_count (self : NLPProcessor) (x : pyobj)
    (top_n : Z) (Hn : (top_n < 0)%Z) :
  extract_keywords self x top_n
  = firstn (length (all_keywords self x) - Z.to_nat (- top_n))
      (all_keywords self x).
Proof.
  rewrite all_keywords_eq, extract_keywords_slice.
  unfold slice_to. now destruct (Z.leb_spec 0 top_n); [lia|].
Qed.

(** X8 at a report with four keywords and [top_n = -2]. *)
Lemma extract_keywords_negative_witness :
  let x := PyStr (txt "Rough seas, rough waves; seas rising") in
  extract_keywords sample_processor x (-2)
  = firstn 2 (all_keywords sample_processor x).
Proof.
  intros x.
  assert (Hn : (-2 < 0)%Z) by reflexivity.
  rewrite (extract_keywords_negative_count sample_processor x Hn).
  vm_compute. reflexivity.
Defined.

(** ** Batches *)



(** ** More on [clean_text] *)

(** X10.  The texts that [clean_text] returns unchanged are exactly those
    that [str.lower] leaves unchanged, without decimal digits and
    punctuation, in which every whitespace character is a single space
    between two other characters, and in which the URL pattern has no
    match. *)
Theorem clean_text_fixed_points (y : text) :
  clean_text (PyStr y) = y
  <-> lower y = y
      /\ Forall (fun c => isdecimal c = false /\ ispunct c = false) y
      /\ single_spaced y
      /\ span_len isspace y = 0
      /\ (forall t c, y = t ++ [c] -> isspace c = false)
      /\ re_search false url_re y = None.
Proof.
  assert (Hplain : Forall plain_char y
                   <-> lower y = y
                       /\ Forall (fun c => isdecimal c = false
                                           /\ ispunct c = false) y).
  { split.
    - intros H. split.
      + apply lower_fixed. eapply Forall_impl; [|exact H].
        now intros c (Hc & _).
      + eapply Forall_impl; [|exact H]. now intros c (_ & Hc).
    - intros [Hl Hd]. apply lower_unchanged in Hl.
      rewrite Forall_forall in *. intros c Hc.
      split; [now apply Hl|now apply Hd]. }
  rewrite <- and_assoc, <- Hplain.
  simpl. split.
  - intros E.
    split; [rewrite <- E; apply clean_str_plain|].
    split; [rewrite <- E; apply clean_str_single_spaced|].
    split; [rewrite <- E; apply clean_str_head|].
    split; [intros t c H; apply (clean_str_last y t); now rewrite E|].
    destruct (re_search false url_re y) eqn:Eu; [|reflexivity].
    exfalso. apply (clean_str_changed y).
    + rewrite E, Eu. discriminate.
    + now rewrite !E.
  - intros (Hp & Hs & Hh & Hl & Hu).
    destruct y as [|a y]; [reflexivity|].
    now apply clean_steps_fixed.
Qed.

Lemma sub_from_length (r : regex) (tpl : list repl_item) :
  (forall t n caps,
      match_here false r t = Some (n, caps) ->
      length (expand tpl caps) <= n) ->
  forall s skip, length (sub_from r tpl s skip) <= length s - skip.
Proof.
  intros Hexp. induction s as [|c s IH]; intros skip; cbn [sub_from].
  - destruct skip; [|simpl; lia].
    destruct (match_here false r []) as [[n caps]|] eqn:E; [|simpl; lia].
    pose proof (Hexp _ _ _ E). apply match_here_inv in E as [E _].
    simpl in *. lia.
  - destruct skip as [|skip]; [|specialize (IH skip); simpl; lia].
    destruct (match_here false r (c :: s)) as [[n caps]|] eqn:E.
    + pose proof (Hexp _ _ _ E) as Hn. apply match_here_inv in E as [E _].
      destruct n as [|n]; rewrite length_app; cbn [length] in *.
      * specialize (IH 0). lia.
      * specialize (IH n). lia.
    + specialize (IH 0). simpl. lia.
Qed.

Lemma hashtag_group_length (t : text) (n : nat) (caps : captures) :
  match_here false hashtag_re t = Some (n, caps) ->
  length (expand [RGroup 1] caps) <= n.
Proof.
  rewrite hashtag_re_eq. unfold match_here, Rep1. cbn [re_m].
  destruct t as [|c t]; [discriminate|].
  destruct (chr_eq false c "#"); [|discriminate].
  destruct t as [|a t]; [discriminate|].
  destruct (negb (isspace a)); [|discriminate].
  rewrite (rep_total (fun a => negb (isspace a))
             (fun s' => (length (c :: a :: t) - length s',
                         [(1, firstn (length (a :: t) - length s') (a :: t))]))).
  intros [= <- <-]. cbn [expand flat_map group Nat.eqb].
  rewrite app_nil_r, length_firstn.
  destruct (length (skipn (span_len (fun a0 => negb (isspace a0)) t) t))
    as [|[|l]]; cbn [length]; lia.
Qed.

(** X11.  The steps that follow [str.lower] never lengthen the text: the
    text returned by [clean_text] is never longer than the lowercased
    string, which over the alphabet has the length of the string given. *)
Theorem clean_text_not_longer (s : text) :
  length (clean_text (PyStr s)) <= length (lower s)
  /\ length (lower s) = length s.
Proof.
  split; [|apply length_map].
  simpl. destruct s as [|a s]; [simpl; lia|].
  change (length (clean_steps (a :: s)) <= length (lower (a :: s))).
  set (s0 := a :: s). unfold clean_steps.
  set (t1 := re_sub url_re [] (lower s0)).
  set (t2 := re_sub mention_re [] t1).
  set (t3 := re_sub hashtag_re [RGroup 1] t2).
  set (t4 := translate_delete punctuation t3).
  set (t5 := re_sub digits_re [] t4).
  assert (H1 : length t1 <= length (lower s0))
    by apply sub_from_delete_length.
  assert (H2 : length t2 <= length t1) by apply sub_from_delete_length.
  assert (H3 : length t3 <= length t2).
  { pose proof (@sub_from_length hashtag_re [RGroup 1] hashtag_group_length
                  t2 0) as H.
    unfold t3, re_sub. lia. }
  assert (H4 : length t4 <= length t3) by apply filter_length.
  assert (H5 : length t5 <= length t4) by apply sub_from_delete_length.
  assert (H6 : length (re_sub spaces_re [RLit (txt " ")] t5) <= length t5).
  { rewrite spaces_re_eq. apply sub_spaces_length. }
  pose proof (strip_length (re_sub spaces_re [RLit (txt " ")] t5)) as H7.
  lia.
Qed.

Lemma lower_lower (s : text) : lower (lower s) = lower s.
Proof.
  unfold lower. rewrite map_map. apply map_ext. intros c.
  apply lower_char_fixed, lower_char_not_upper.
Qed.

(** X12.  [clean_text] does not see the case of letters: two strings that
    are equal once lowercased are cleaned to the same text. *)
Theorem clean_text_ignores_case (s1 s2 : text)
    (Hcase : lower s1 = lower s2) :
  clean_text (PyStr s1) = clean_text (PyStr s2).
Proof.
  simpl. destruct s1 as [|a s1], s2 as [|b s2]; try discriminate;
    [reflexivity|].
  unfold clean_str, clean_steps. now rewrite Hcase.
Qed.

(** X12 at a report in capitals and in lower case. *)
Lemma clean_text_ignores_case_witness :
  clean_text (PyStr (txt "FLOOD Warning at Pier 9"))
  = clean_text (PyStr (txt "flood warning AT pier 9")).
Proof.
  apply clean_text_ignores_case. vm_compute. reflexivity.
Defined.




(** ** Refreshes of the dashboard *)

Lemma slice_last_suffix (A : Type) (n : nat) (h b : list A) :
  exists older, slice_last n (h ++ b) = older ++ slice_last n b.
Proof.
  unfold slice_last. rewrite length_app, skipn_app.
  destruct (Nat.le_gt_cases n (length b)) as [H|H].
  - exists []. simpl.
    rewrite skipn_all2 by lia. simpl. f_equal. lia.
  - exists (skipn (length h + length b - n) h).
    replace (length h + length b - n - length h) with 0 by lia.
    replace (length b - n) with 0 by lia. reflexivity.
Qed.

(** X15.  After a refresh that does not raise, [current_hazards] is the
    batch of that refresh and the history ends with the last 1000 entries
    of the batch: with the whole batch when it has at most 1000
    entries. *)
Theorem current_hazards_end_history (self : Dashboard) (c : collection)
    (Hrun : is_raised c = false) :
  let after := collect_and_analyze_data self c in
  current_hazards after = appended c
  /\ (exists older,
         hazard_history after
         = older ++ skipn (length (appended c) - 1000) (appended c))
  /\ (length (appended c) <= 1000 ->
      exists older, hazard_history after = older ++ current_hazards after).
Proof.
  intros after.
  assert (Hc : current_hazards after = appended c).
  { unfold after. destruct c; [reflexivity|discriminate|reflexivity]. }
  assert (Hh : hazard_history after
               = slice_last history_cap (hazard_history self ++ appended c)).
  { unfold after. destruct c; simpl; try discriminate;
      apply extend_history_eq. }
  destruct (slice_last_suffix history_cap (hazard_history self) (appended c))
    as [older Ho].
  split; [exact Hc|]. split.
  - exists older. now rewrite Hh, Ho.
  - intros Hlen. exists older. rewrite Hh, Ho, Hc.
    f_equal. apply slice_last_all. exact Hlen.
Qed.

(** X15 at a refresh with mock data after an earlier one. *)
Lemma current_hazards_end_history_witness :
  let before := collect_and_analyze_data new_dashboard (NoComponents 50) in
  let after := collect_and_analyze_data before (NoComponents 90) in
  current_hazards after = map Mocked (mock_data 90)
  /\ exists older, hazard_history after = older ++ current_hazards after.
Proof.
  intros before after.
  destruct (current_hazards_end_history before (NoComponents 90) eq_refl)
    as (Hc & _ & Hh).
  split; [exact Hc|]. apply Hh. cbn [appended mock_data map length]. lia.
Defined.

(** X16.  The description cell of the hazard table holds at most 103
    characters and starts with the first 100 characters of the
    description; it is the description itself, or else the description
    has more than 100 characters and the cell is its first 100 followed
    by three dots. *)
Theorem table_description_bounds (d : text) :
  length (table_description d) <= 103
  /\ firstn 100 (table_description d) = firstn 100 d
  /\ (table_description d = d
      \/ 100 < length d
         /\ table_description d = firstn 100 d ++ txt "...").
Proof.
  unfold table_description.
  destruct (Nat.ltb_spec 100 (length d)) as [H|H].
  - split; [|split].
    + rewrite length_app, length_firstn.
      change (length (txt "...")) with 3. lia.
    + rewrite firstn_app, length_firstn.
      replace (100 - Nat.min 100 (length d)) with 0 by lia.
      rewrite firstn_firstn. change (firstn 0 (txt "...")) with (@nil ascii).
      now rewrite app_nil_r.
    + right. now split.
  - split; [lia|]. split; [reflexivity|now left].
Qed.

(** ** Dashboard items *)

Lemma try_map_none (A B : Type) (f : A -> option B) (l : list A) :
  try_map f l = None <-> exists a, In a l /\ f a = None.
Proof.
  induction l as [|a l IH]; simpl.
  - split; [discriminate|now intros (a & [] & _)].
  - destruct (f a) as [b|] eqn:E.
    + destruct (try_map f l) as [m|].
      * split; [discriminate|].
        intros (x & [<-|Hx] & Hf); [congruence|].
        assert (Hn : Some m = None) by (apply IH; now exists x).
        discriminate.
      * split; [|reflexivity]. intros _.
        destruct (proj1 IH eq_refl) as (x & Hx & Hf).
        exists x. split; [now right|assumption].
    + split; [|reflexivity]. intros _. exists a. split; [now left|assumption].
Qed.

Lemma prepare_item_none (hash_id : pydict -> string) (now : Z)
    (hazard : pydict) :
  prepare_item hash_id now hazard = None
  <-> exists v, lookup hazard "original_data" = Some v /\ is_dict v = false.
Proof.
  unfold prepare_item, get.
  destruct (lookup hazard "original_data") as [v|] eqn:E.
  - destruct v as [|s|q|t|l|d];
      try (split; [intros _; eexists; split; reflexivity|reflexivity]).
    split; [discriminate|]. intros (v & [= <-] & H). discriminate H.
  - split; [discriminate|]. intros (v & H & _). discriminate H.
Qed.

(** X17.  A dashboard item is its own preparation: preparing an item that
    [_prepare_data_for_dashboard] produced gives the same item back,
    whatever the clock and the hash are. *)
Theorem prepare_item_idempotent (hash_id hash_id' : pydict -> string)
    (now now' : Z) (hazard item : pydict)
    (Hitem : prepare_item hash_id now hazard = Some item) :
  map fst item = item_keys
  /\ prepare_item hash_id' now' item = Some item.
Proof.
  unfold prepare_item in Hitem.
  destruct (get hazard "original_data" (VDict hazard)) as [| | | | |d];
    try discriminate.
  injection Hitem as <-. split; reflexivity.
Qed.

(** X17 at an analyzed tweet: its item has the tweet's text as
    description and no coordinates. *)
Lemma prepare_item_idempotent_witness :
  let item :=
    [ ("id", VStr "tweet_1");
      ("description", VStr "The waves are getting dangerously high");
      ("location", VStr "Coastal City");
      ("latitude", VNone); ("longitude", VNone);
      ("timestamp", VTime 1000);
      ("severity", VStr "high");
      ("hazards", VList [VStr "high_waves"]);
      ("source", VStr "twitter");
      ("confidence", VNum 0.8) ]%string%Q in
  prepare_item (fun _ => "0"%string) 1000 sample_hazard = Some item
  /\ prepare_item (fun _ => "1"%string) 2000 item = Some item.
Proof.
  intros item.
  assert (H : prepare_item (fun _ => "0"%string) 1000 sample_hazard
              = Some item) by reflexivity.
  split; [exact H|].
  exact (proj2 (@prepare_item_idempotent (fun _ => "0"%string)
                  (fun _ => "1"%string) 1000 2000 sample_hazard item H)).
Defined.

(** X18.  [_prepare_data_for_dashboard] raises exactly when some hazard
    holds under "original_data" a value that is not a dictionary;
    otherwise it returns one item for each hazard. *)
Theorem prepare_data_result (hash_id : pydict -> string) (now : Z)
    (current : list pydict) :
  (_prepare_data_for_dashboard hash_id now current = None
   <-> exists hazard v,
         In hazard current
         /\ lookup hazard "original_data" = Some v /\ is_dict v = false)
  /\ forall items,
       _prepare_data_for_dashboard hash_id now current = Some items ->
       length items = length current.
Proof.
  unfold _prepare_data_for_dashboard. split.
  - rewrite try_map_none. split.
    + intros (h & Hin & Hn). apply prepare_item_none in Hn as (v & Hv & Hd).
      now exists h, v.
    + intros (h & v & Hin & Hv & Hd). exists h. split; [assumption|].
      apply prepare_item_none. now exists v.
  - intros items. apply try_map_length.
Qed.

(** X19.  The dashboard shows mock data as written: every mock record is
    prepared to its own nine fields, followed by a confidence of zero,
    and preparing the mock data never raises. *)
Theorem prepare_mock_data (hash_id : pydict -> string) (now clock : Z)
    (m : MockReport) :
  prepare_item hash_id clock (mock_dict m)
  = Some (mock_dict m ++ [("confidence"%string, VNum 0)])
  /\ _prepare_data_for_dashboard hash_id clock
       (map mock_dict (mock_data now))
     = Some (map (fun m => mock_dict m ++ [("confidence"%string, VNum 0)])
               (mock_data now)).
Proof. split; reflexivity. Qed.

(** ** Hazard counts *)

Lemma counts_of_fold_all (l : list text) :
  forall seen d,
    counts_of seen d ->
    counts_of (seen ++ l)
      (fold_left (fun counts hazard =>
                    dict_set counts hazard (dict_get counts hazard + 1))
         l d).
Proof.
  induction l as [|t l IH]; intros seen d H; simpl.
  - now rewrite app_nil_r.
  - pose proof (IH (seen ++ [t]) _ (counts_of_step t H)) as H'.
    rewrite <- app_assoc in H'. exact H'.
Qed.

Lemma fold_increment_total (l : list text) :
  forall d,
    total_frequency
      (fold_left (fun counts hazard =>
                    dict_set counts hazard (dict_get counts hazard + 1))
         l d)
    = total_frequency d + length l.
Proof.
  induction l as [|t l IH]; intros d; simpl; [lia|].
  rewrite IH, dict_increment_total. lia.
Qed.

Lemma hazard_counts_concat (rows : list (list text)) :
  forall d,
    fold_left
      (fun counts row =>
         fold_left (fun counts hazard =>
                      dict_set counts hazard (dict_get counts hazard + 1))
           row counts)
      rows d
    = fold_left (fun counts hazard =>
                   dict_set counts hazard (dict_get counts hazard + 1))
        (concat rows) d.
Proof.
  induction rows as [|row rows IH]; intros d; simpl; [reflexivity|].
  now rewrite fold_left_app, IH.
Qed.

(** X20.  The hazard counts of the distribution chart hold every hazard
    tag of the rows once, each with the number of its occurrences over all
    rows, so the counts sum to the number of tags; a tag that occurs in
    no row has no count. *)
Theorem hazard_counts_exact (rows : list (list text)) :
  let counts := hazard_counts rows in
  NoDup (map fst counts)
  /\ (forall h, In h (map fst counts) <-> In h (concat rows))
  /\ (forall h c, In (h, c) counts ->
                  c = count_occ text_eq_dec (concat rows) h)
  /\ total_frequency counts = length (concat rows).
Proof.
  intros counts. unfold counts, hazard_counts.
  rewrite hazard_counts_concat.
  pose proof (counts_of_fold_all (concat rows) counts_of_nil) as H.
  simpl in H.
  split; [eapply counts_of_keys_NoDup; exact H|].
  destruct H as [_ Hk Hv].
  split; [exact Hk|]. split; [exact Hv|].
  now rewrite fold_increment_total.
Qed.

(** ** The data collector *)

Lemma lookup_assign_same (A : Type) (d : list (string * A)) (k : string)
    (v : A) :
  lookup (assign d k v) k = Some v.
Proof.
  induction d as [|[k' v'] d IH]; simpl.
  - now rewrite String.eqb_refl.
  - destruct (String.eqb k k') eqn:E; simpl; rewrite E; [reflexivity|exact IH].
Qed.

Lemma lookup_assign_other (A : Type) (d : list (string * A)) (k k' : string)
    (v : A) :
  k' <> k -> lookup (assign d k v) k' = lookup d k'.
Proof.
  intros Hne. induction d as [|[k0 v0] d IH]; simpl.
  - destruct (String.eqb_spec k' k); [contradiction|reflexivity].
  - destruct (String.eqb_spec k k0) as [->|Hk]; simpl.
    + destruct (String.eqb_spec k' k0); [contradiction|reflexivity].
    + now rewrite IH.
Qed.

Lemma assign_present (A : Type) (d : list (string * A)) (k : string) (v : A) :
  lookup d k <> None -> map fst (assign d k v) = map fst d.
Proof.
  induction d as [|[k0 v0] d IH]; simpl; [congruence|].
  destruct (String.eqb k k0); simpl; [reflexivity|].
  intros H. now rewrite IH.
Qed.

Lemma assign_absent (A : Type) (d : list (string * A)) (k : string) (v : A) :
  lookup d k = None -> assign d k v = d ++ [(k, v)].
Proof.
  induction d as [|[k0 v0] d IH]; simpl; [reflexivity|].
  destruct (String.eqb k k0); [discriminate|].
  intros H. now rewrite IH.
Qed.

(** X21.  A source registered under a name is the one that
    [collect_from_source] then calls for that name; every other name is
    answered as before; registering under a name already known replaces
    that source in place, and a new name goes last. *)
Theorem register_then_collect (self : DataCollector) (name : string)
    (source : DataSource) (params : pydict) (now : Z) :
  let after := register_source self name source in
  collect_from_source after name params now = source params now
  /\ (forall other,
         other <> name ->
         collect_from_source after other params now
         = collect_from_source self other params now)
  /\ (lookup (sources self) name <> None ->
      map fst (sources after) = map fst (sources self))
  /\ (lookup (sources self) name = None ->
      sources after = sources self ++ [(name, source)])
  /\ (forall unknown,
         lookup (sources self) unknown = None ->
         collect_from_source self unknown params now = Some []).
Proof.
  intros after. unfold after, collect_from_source, register_source.
  cbn [sources].
  split; [now rewrite lookup_assign_same|].
  split; [intros other Ho; now rewrite lookup_assign_other|].
  split; [apply assign_present|]. split; [apply assign_absent|].
  intros unknown Hu. now rewrite Hu.
Qed.

(** X21 at the collector of [__init__]: a buoy source is added, the news
    source is replaced by one that raises. *)
Lemma register_then_collect_witness :
  collect_from_source (register_source new_collector "buoys" buoy_source)
    "buoys" [] 5%Z
  = buoy_source [] 5%Z
  /\ map fst (sources (register_source new_collector "news_feeds"
                         broken_source))
     = ["citizen_reports"; "social_media"; "news_feeds"]%string
  /\ collect_from_source new_collector "radar" [] 5%Z = Some [].
Proof.
  destruct (register_then_collect new_collector "buoys" buoy_source [] 5%Z)
    as (H1 & _ & _ & _ & H5).
  destruct (register_then_collect new_collector "news_feeds" broken_source
              [] 5%Z) as (_ & _ & H3 & _).
  split; [exact H1|]. split; [|now apply H5].
  rewrite H3; [reflexivity|discriminate].
Defined.

Lemma collect_fold (params : list (string * pydict)) (now : Z)
    (entries : list (string * DataSource)) :
  forall all_data,
    fold_left (collect_one params now) entries all_data
    = all_data ++ flat_map (contribution params now) entries.
Proof.
  induction entries as [|e entries IH]; intros all_data; simpl.
  - now rewrite app_nil_r.
  - rewrite IH. unfold collect_one, contribution.
    destruct (snd e (get params (fst e) []) now); simpl.
    + now rewrite app_assoc.
    + reflexivity.
Qed.

(** X22.  [collect_all_data] returns the records of the sources that do
    not raise, source after source in the order of registration: a record
    is returned exactly when some registered source returned it, a source
    that raises contributes nothing and stops no other source; the result
    is stored in [collected_data] and the sources stay as they are. *)
Theorem collect_all_data_isolates_failures (self : DataCollector)
    (params : list (string * pydict)) (now : Z) :
  let result := collect_all_data self params now in
  fst result = flat_map (contribution params now) (sources self)
  /\ (forall item,
         In item (fst result)
         <-> exists name source source_data,
               In (name, source) (sources self)
               /\ source (get params name []) now = Some source_data
               /\ In item source_data)
  /\ collected_data (snd result) = fst result
  /\ sources (snd result) = sources self.
Proof.
  intros result.
  assert (E : fst result = flat_map (contribution params now) (sources self)).
  { unfold result, collect_all_data. cbn [fst]. now rewrite collect_fold. }
  split; [exact E|]. split; [|split; reflexivity].
  intros item. rewrite E, in_flat_map. split.
  - intros ([name source] & Hin & Hitem). unfold contribution in Hitem.
    cbn [fst snd] in Hitem.
    destruct (source (get params name []) now) as [d|] eqn:Es;
      [|destruct Hitem].
    now exists name, source, d.
  - intros (name & source & d & Hin & Es & Hitem).
    exists (name, source). split; [assumption|].
    unfold contribution. cbn [fst snd]. now rewrite Es.
Qed.

(** X23.  Registering a source under a new name adds its records at the
    end of what [collect_all_data] returns, and nothing else changes; if
    the new source raises, the result is the one from before. *)
Theorem collect_all_data_after_register (self : DataCollector)
    (name : string) (source : DataSource)
    (params : list (string * pydict)) (now : Z)
    (Hnew : lookup (sources self) name = None) :
  fst (collect_all_data (register_source self name source) params now)
  = fst (collect_all_data self params now)
    ++ contribution params now (name, source).
Proof.
  unfold collect_all_data, register_source. cbn [fst sources].
  rewrite (assign_absent _ _ source Hnew), !collect_fold, flat_map_app.
  simpl. now rewrite app_nil_r.
Qed.

(** X23 at the collector of [__init__], with a buoy source and with a
    source that raises. *)
Lemma collect_all_data_after_register_witness :
  length (fst (collect_all_data
                 (register_source new_collector "buoys" buoy_source) [] 0%Z))
  = 6
  /\ fst (collect_all_data
            (register_source new_collector "radar" broken_source) [] 0%Z)
     = fst (collect_all_data new_collector [] 0%Z).
Proof.
  assert (H1 : lookup (sources new_collector) "buoys" = None) by reflexivity.
  assert (H2 : lookup (sources new_collector) "radar" = None) by reflexivity.
  split.
  - rewrite (@collect_all_data_after_register new_collector "buoys"
               buoy_source [] 0%Z H1).
    reflexivity.
  - rewrite (@collect_all_data_after_register new_collector "radar"
               broken_source [] 0%Z H2).
    apply app_nil_r.
Defined.

(** ** The URL pattern *)

Lemma url_re_alternatives :
  url_re = Alt (re "http\S+") (Alt (re "www\S+") (re "https\S+")).
Proof. reflexivity. Qed.

Lemma http_re_eq :
  re "http\S+"
  = Cat (Chr "h") (Cat (Chr "t") (Cat (Chr "t") (Cat (Chr "p")
      (Cat (Cls notspace) (Rep notspace))))).
Proof. reflexivity. Qed.

Lemma https_re_eq :
  re "https\S+"
  = Cat (Chr "h") (Cat (Chr "t") (Cat (Chr "t") (Cat (Chr "p")
      (Cat (Chr "s") (Cat (Cls notspace) (Rep notspace)))))).
Proof. reflexivity. Qed.

Ltac invert_matches :=
  repeat match goal with
         | H : matches _ (Cat _ _) _ |- _ => inversion H; subst; clear H
         | H : matches _ (Chr _) _ |- _ => inversion H; subst; clear H
         | H : matches _ (Cls _) _ |- _ => inversion H; subst; clear H
         | H : matches _ (Rep _) _ |- _ => inversion H; subst; clear H
         end.

Lemma https_words_are_http_words (w : text) :
  matches false (re "https\S+") w -> matches false (re "http\S+") w.
Proof.
  rewrite https_re_eq, http_re_eq. intros H. invert_matches.
  repeat (apply M_Cat; [now apply M_Chr|]).
  match goal with
  | Hs : chr_eq false ?a "s" = true |- _ =>
      unfold chr_eq in Hs; apply Ascii.eqb_eq in Hs; subst a
  end.
  apply M_Cat; [now apply M_Cls|].
  apply M_Rep. constructor; assumption.
Qed.

Lemma https_never_decides (t : text) :
  match_here false (re "http\S+") t = None ->
  match_here false (re "https\S+") t = None.
Proof.
  intros Hn.
  destruct (match_here false (re "https\S+") t) as [x|] eqn:E;
    [|reflexivity].
  exfalso. unfold match_here in E.
  apply re_m_sound in E as (w & s' & caps' & -> & M & _).
  apply https_words_are_http_words in M.
  now apply (match_here_complete s' M).
Qed.

Lemma sub_from_ext (r1 r2 : regex) (tpl : list repl_item) :
  (forall t, match_here false r1 t = match_here false r2 t) ->
  forall s skip, sub_from r1 tpl s skip = sub_from r2 tpl s skip.
Proof.
  intros Hext. induction s as [|c s IH]; intros skip; cbn [sub_from].
  - now rewrite Hext.
  - rewrite Hext. destruct skip; [|apply IH].
    destruct (match_here false r2 (c :: s)) as [[[|n] caps]|];
      now rewrite IH.
Qed.

(** X24.  The third alternative of the URL pattern of [clean_text] never
    decides a match: where [https\S+] matches, [http\S+] matches first,
    so the pattern removes the same text as [http\S+|www\S+]. *)
Theorem https_alternative_redundant (s : text) :
  re_sub url_re [] s = re_sub (re "http\S+|www\S+") [] s.
Proof.
  unfold re_sub. apply sub_from_ext. intros t.
  rewrite url_re_alternatives.
  change (re "http\S+|www\S+") with (Alt (re "http\S+") (re "www\S+")).
  unfold match_here. cbn [re_m].
  fold (match_here false (re "http\S+") t).
  fold (match_here false (re "www\S+") t).
  fold (match_here false (re "https\S+") t).
  destruct (match_here false (re "http\S+") t) eqn:Ea; [reflexivity|].
  destruct (match_here false (re "www\S+") t); [reflexivity|].
  now apply https_never_decides.
Qed.
